(** * LMMS mixer (include/mixer.h): quality settings, sample clipping,
      play-handle registry and buffer delivery; and the tracks of
      Track.cpp with their content objects.

    Samples ([sample_t] is C++ [float]) are IEEE-754 binary32 values, taken
    from the Standard Library's [SpecFloat] at precision 24 and maximal
    exponent 128.  C++ enumerations are kept as the integers they are, so
    that the fall-through [return] after each [switch] is part of the model. *)

From Stdlib Require Import ZArith List Bool Lia.
From Stdlib Require Import Sorting.Permutation.
From Stdlib Require Import Floats.SpecFloat.
Import ListNotations.
Local Open Scope Z_scope.

(* ================================================================== *)
(** ** Samples: binary32 *)

Module Sample.

Definition prec : Z := 24.
Definition emax : Z := 128.

(** [typedef float sample_t] *)
Definition sample_t : Type := spec_float.

(** The literals [1.0f] and [-1.0f] in canonical form (24-bit mantissa). *)
Definition f_one : sample_t := S754_finite false 8388608 (-23).
Definition f_minus_one : sample_t := S754_finite true 8388608 (-23).

(** [0.6f]: the binary32 value nearest to 0.6 (bit pattern 0x3F19999A). *)
Definition f_0_6 : sample_t := S754_finite false 10066330 (-24).
(** [1.2f]: bit pattern 0x3F99999A. *)
Definition f_1_2 : sample_t := S754_finite false 10066330 (-23).

Definition fadd : sample_t -> sample_t -> sample_t := SFadd prec emax.
Definition fmul : sample_t -> sample_t -> sample_t := SFmul prec emax.

(** C++ [a > b] and [a < b] on floats: false as soon as one side is NaN. *)
Definition fgt (a b : sample_t) : bool := SFltb b a.
Definition flt (a b : sample_t) : bool := SFltb a b.
Definition fle (a b : sample_t) : bool := SFleb a b.

(** [static inline sample_t clip( const sample_t _s )] *)
Definition clip (_s : sample_t) : sample_t :=
  if fgt _s f_one then f_one
  else if flt _s f_minus_one then f_minus_one
  else _s.

(** Membership in the closed interval [-1.0, 1.0]. *)
Definition in_unit_range (s : sample_t) : bool :=
  fle f_minus_one s && fle s f_one.

Definition is_nan (s : sample_t) : bool :=
  match s with S754_nan => true | _ => false end.

(** Modelled from the spec: the mixing of two units on one port
    ([bufferToPort] and the master-gain stage live in mixer.cpp, which is
    missing).  §8 scenario 8: each unit's sample is scaled by the port
    volume, the results are summed, and the sum is scaled by the master
    gain; the result is the sample handed to [clip]. *)
Definition mix2 (u1 u2 volume masterGain : sample_t) : sample_t :=
  fmul (fadd (fmul u1 volume) (fmul u2 volume)) masterGain.

End Sample.

(* ================================================================== *)
(** ** struct mixer::qualitySettings *)

Module qualitySettings.

(** [enum Mode] *)
Definition Mode : Type := Z.
Definition Mode_Draft : Mode := 0.
Definition Mode_HighQuality : Mode := 1.
Definition Mode_FinalMix : Mode := 2.

(** [enum Interpolation] *)
Definition Interpolation : Type := Z.
Definition Interpolation_Linear : Interpolation := 0.
Definition Interpolation_SincFastest : Interpolation := 1.
Definition Interpolation_SincMedium : Interpolation := 2.
Definition Interpolation_SincBest : Interpolation := 3.

(** [enum Oversampling] *)
Definition Oversampling : Type := Z.
Definition Oversampling_None : Oversampling := 0.
Definition Oversampling_2x : Oversampling := 1.
Definition Oversampling_4x : Oversampling := 2.
Definition Oversampling_8x : Oversampling := 3.

Record t : Type := mk {
  interpolation : Interpolation;
  oversampling : Oversampling;
  sampleExactControllers : bool;
  aliasFreeOscillators : bool
}.

(** [qualitySettings( Mode _m )].  The constructor assigns the members
    inside a [switch] without a default: for a mode outside the three
    presets the members keep whatever the storage held, here [uninit]. *)
Definition of_Mode (uninit : t) (_m : Mode) : t :=
  match _m with
  | 0 => mk Interpolation_Linear Oversampling_None false false
  | 1 => mk Interpolation_SincFastest Oversampling_2x true false
  | 2 => mk Interpolation_SincBest Oversampling_8x true true
  | _ => uninit
  end.

(** [int sampleRateMultiplier( void ) const] *)
Definition sampleRateMultiplier (q : t) : Z :=
  match oversampling q with
  | 0 => 1
  | 1 => 2
  | 2 => 4
  | 3 => 8
  | _ => 1
  end.

(** Modelled from the spec: [mixer::processingSampleRate] is declared in
    mixer.h and defined in mixer.cpp, which is missing.  §3:
    [processingSampleRate = outputSampleRate × oversamplingFactor]; the
    output rate comes from the audio device and is an argument here. *)
Definition processingSampleRate (outputSampleRate : Z) (q : t) : Z :=
  outputSampleRate * sampleRateMultiplier q.

Section Libsamplerate.

(** The converter identifiers of <samplerate.h>, which is not part of
    the sources at hand. *)
Variables SRC_SINC_BEST_QUALITY SRC_SINC_MEDIUM_QUALITY SRC_SINC_FASTEST
          SRC_ZERO_ORDER_HOLD SRC_LINEAR : Z.

(** [int libsrcInterpolation( void ) const] *)
Definition libsrcInterpolation (q : t) : Z :=
  match interpolation q with
  | 0 => SRC_ZERO_ORDER_HOLD
  | 1 => SRC_SINC_FASTEST
  | 2 => SRC_SINC_MEDIUM_QUALITY
  | 3 => SRC_SINC_BEST_QUALITY
  | _ => SRC_LINEAR
  end.

End Libsamplerate.

End qualitySettings.

(* ================================================================== *)
(** ** class Track and class TrackContentObject (Track.cpp)

    Content objects and tracks are handled through pointers, of which only
    the identity matters.  [MidiTime] wraps an [int] tick count and
    converts to and from it, and [MidiTime::ticksPerTact()] is an [int]
    that the time signature sets: it is the argument [tpt].  The calls
    into [Song] ([updateLength], [setModified]) and the Qt signals touch
    no member of the track or of its content objects and are left out. *)

Module Track.

Definition tco : Type := nat.       (* TrackContentObject * *)
Definition track : Type := nat.     (* Track * *)

(** The largest [int]. *)
Definition int_max : Z := 2147483647.

(** [m_startPosition] of every content object. *)
Definition positions : Type := tco -> Z.

Definition set_pos (h : positions) (t : tco) (pos : Z) : positions :=
  fun x => if Nat.eqb x t then pos else h x.

(** [void TrackContentObject::movePosition( const MidiTime & pos )] *)
Definition movePosition (h : positions) (t : tco) (pos : Z) : positions :=
  if negb (h t =? pos) then set_pos h t pos else h.

(** [TrackContentObject * Track::addTCO( TrackContentObject * tco )]:
    the new [m_trackContentObjects]; the call returns its argument. *)
Definition addTCO (l : list tco) (t : tco) : list tco := l ++ [t].

(** [qFind] and [erase]: the first entry equal to [t] goes. *)
Fixpoint erase_first (t : tco) (l : list tco) : list tco :=
  match l with
  | [] => []
  | x :: r => if Nat.eqb x t then r else x :: erase_first t r
  end.

(** [void Track::removeTCO( TrackContentObject * tco )] *)
Definition removeTCO (l : list tco) (t : tco) : list tco := erase_first t l.

(** [int Track::numOfTCOs()] *)
Definition numOfTCOs (l : list tco) : Z := Z.of_nat (List.length l).

(** What [getTCO] hands back: an entry of the vector, the object that
    [createTCO] makes at the given position, or an access outside the
    vector ([QVector::operator[]] with a negative index). *)
Inductive tco_result : Type :=
| Existing (t : tco)
| Created (pos : Z)
| OutOfBounds.

(** [m_trackContentObjects[i]] *)
Definition vec_at (l : list tco) (i : Z) : option tco :=
  if (0 <=? i) && (i <? numOfTCOs l) then nth_error l (Z.to_nat i) else None.

(** [TrackContentObject * Track::getTCO( int tcoNum )] *)
Definition getTCO (tpt : Z) (l : list tco) (tcoNum : Z) : tco_result :=
  if tcoNum <? numOfTCOs l then
    match vec_at l tcoNum with
    | Some t => Existing t
    | None => OutOfBounds
    end
  else Created (tcoNum * tpt).

(** [qFind]: the index of the first entry equal to [t]. *)
Fixpoint find_index (t : tco) (l : list tco) : option nat :=
  match l with
  | [] => None
  | x :: r => if Nat.eqb x t then Some O else option_map S (find_index t r)
  end.

(** [int Track::getTCONum( const TrackContentObject * tco )] *)
Definition getTCONum (l : list tco) (t : tco) : Z :=
  match find_index t l with
  | Some i => Z.of_nat i
  | None => 0
  end.

(** The inner loop of [getTCOsInRange]: [t] goes in front of the first
    entry that starts at [s] or later, and to the end when there is none. *)
Fixpoint insert_by_start (startPosition : tco -> Z) (s : Z) (t : tco)
    (tcoV : list tco) : list tco :=
  match tcoV with
  | [] => [t]
  | x :: r =>
      if startPosition x >=? s then t :: x :: r
      else x :: insert_by_start startPosition s t r
  end.

(** [void Track::getTCOsInRange( tcoVector & tcoV, const MidiTime & start,
    const MidiTime & end )]: the new [tcoV]. *)
Definition getTCOsInRange (startPosition endPosition : tco -> Z)
    (l : list tco) (tcoV : list tco) (start end_ : Z) : list tco :=
  fold_left
    (fun acc t =>
       let s := startPosition t in
       let e := endPosition t in
       if (s <=? end_) && (e >=? start) then
         insert_by_start startPosition s t acc
       else acc)
    l tcoV.

(** [v[i] = x] on a vector. *)
Fixpoint set_at (l : list tco) (i : nat) (x : tco) : list tco :=
  match l, i with
  | [], _ => []
  | _ :: r, O => x :: r
  | y :: r, S i' => y :: set_at r i' x
  end.

(** [void Track::swapPositionOfTCOs( int tcoNum1, int tcoNum2 )]:
    [None] when an index is outside the vector. *)
Definition swapPositionOfTCOs (l : list tco) (h : positions)
    (tcoNum1 tcoNum2 : Z) : option (list tco * positions) :=
  match vec_at l tcoNum1, vec_at l tcoNum2 with
  | Some a, Some b =>
      let l' := set_at (set_at l (Z.to_nat tcoNum1) b) (Z.to_nat tcoNum2) a in
      match vec_at l' tcoNum1, vec_at l' tcoNum2 with
      | Some x, Some y =>
          let pos := h x in
          let h1 := movePosition h x (h y) in
          Some (l', movePosition h1 y pos)
      | _, _ => None
      end
  | _, _ => None
  end.

(** [void Track::insertTact( const MidiTime & pos )] *)
Definition insertTact (tpt : Z) (l : list tco) (h : positions) (pos : Z)
    : positions :=
  fold_left
    (fun h t => if h t >=? pos then movePosition h t (h t + tpt) else h)
    l h.

(** [void Track::removeTact( const MidiTime & pos )] *)
Definition removeTact (tpt : Z) (l : list tco) (h : positions) (pos : Z)
    : positions :=
  fold_left
    (fun h t =>
       if h t >=? pos then movePosition h t (Z.max (h t - tpt) 0) else h)
    l h.

(** The loop of [Track::length]: the last end position, from 0 on. *)
Definition last_end (endPosition : tco -> Z) (l : list tco) : Z :=
  fold_left
    (fun last t => if endPosition t >? last then endPosition t else last)
    l 0.

(** [tact_t Track::length() const]; [/] on ints truncates. *)
Definition length (endPosition : tco -> Z) (tpt : Z) (l : list tco) : Z :=
  Z.quot (last_end endPosition l) tpt.

(** The members of every track that [toggleSolo] reads and writes:
    [m_soloModel], [m_mutedModel] (through [isMuted] and [setMuted]) and
    [m_mutedBeforeSolo]. *)
Record flags : Type := mkFlags {
  solo : track -> bool;
  muted : track -> bool;
  mutedBeforeSolo : track -> bool
}.

Definition set_flag (g : track -> bool) (t : track) (v : bool)
    : track -> bool :=
  fun x => if Nat.eqb x t then v else g x.

(** [void Track::toggleSolo()] on the track [this] of a container whose
    track list is [tl]. *)
Definition toggleSolo (this : track) (tl : list track) (f : flags) : flags :=
  let soloBefore :=
    existsb (fun t => negb (Nat.eqb t this) && solo f t) tl in
  let solo_ := solo f this in
  fold_left
    (fun f t =>
       if solo_ then
         let f1 :=
           if negb soloBefore
           then mkFlags (solo f) (muted f)
                        (set_flag (mutedBeforeSolo f) t (muted f t))
           else f in
         let f2 :=
           mkFlags (solo f1)
                   (set_flag (muted f1) t (if Nat.eqb t this then false else true))
                   (mutedBeforeSolo f1) in
         if negb (Nat.eqb t this)
         then mkFlags (set_flag (solo f2) t false) (muted f2)
                      (mutedBeforeSolo f2)
         else f2
       else if negb soloBefore then
         mkFlags (solo f) (set_flag (muted f) t (mutedBeforeSolo f t))
                 (mutedBeforeSolo f)
       else f)
    tl f.

(** [MidiTime TrackContentWidget::getPosition( int mouseX )].  The
    position of the container view and the integer part of its pixels per
    bar, [static_cast<int>( tv->pixelsPerTact() )], are the arguments
    [currentPosition] and [ppt]; [/] on ints truncates. *)
Definition getPosition (currentPosition tpt ppt mouseX : Z) : Z :=
  currentPosition + Z.quot (mouseX * tpt) ppt.

(** The entries of a vector come in the order of their start positions. *)
Fixpoint ordered (startPosition : tco -> Z) (l : list tco) : Prop :=
  match l with
  | [] => True
  | x :: r =>
      (forall y, In y r -> startPosition x <= startPosition y) /\
      ordered startPosition r
  end.

(** The test of [getTCOsInRange]: the object meets the range. *)
Definition overlaps (startPosition endPosition : tco -> Z) (start end_ : Z)
    (t : tco) : bool :=
  (startPosition t <=? end_) && (endPosition t >=? start).

(** What one visit of [insertTact] and of [removeTact] does to the start
    position of the visited object. *)
Definition later (tpt pos v : Z) : Z := if v >=? pos then v + tpt else v.
Definition earlier (tpt pos v : Z) : Z :=
  if v >=? pos then Z.max (v - tpt) 0 else v.

(** The body of the second loop of [toggleSolo] for a track that is solo
    while no other track was, and for a track that is not solo while no
    other track is. *)
Definition solo_on_step (this : track) (f : flags) (t : track) : flags :=
  mkFlags (if negb (Nat.eqb t this) then set_flag (solo f) t false else solo f)
          (set_flag (muted f) t (if Nat.eqb t this then false else true))
          (set_flag (mutedBeforeSolo f) t (muted f t)).

Definition unsolo_step (f : flags) (t : track) : flags :=
  mkFlags (solo f) (set_flag (muted f) t (mutedBeforeSolo f t))
          (mutedBeforeSolo f).

End Track.

(* ================================================================== *)
(** ** class mixer *)

Module Mixer.

(** What the calling thread does to objects outside the mixer's plain
    members: the global mutex and the containers it protects. *)
Inductive event : Type :=
| EvLock                  (* m_globalMutex.lock() *)
| EvUnlock                (* m_globalMutex.unlock() *)
| EvAudioPorts            (* structural change of m_audioPorts *)
| EvPlayHandles.          (* structural change of m_playHandles *)

(** Every structural change in a trace happens between a lock and the
    matching unlock; [held] tells whether the mutex is held on entry. *)
Fixpoint guarded (held : bool) (tr : list event) : bool :=
  match tr with
  | [] => true
  | EvLock :: tr' => guarded true tr'
  | EvUnlock :: tr' => guarded false tr'
  | (EvAudioPorts | EvPlayHandles) :: tr' => held && guarded held tr'
  end.

(** Whether the mutex is held after a trace. *)
Fixpoint held_after (held : bool) (tr : list event) : bool :=
  match tr with
  | [] => held
  | EvLock :: tr' => held_after true tr'
  | EvUnlock :: tr' => held_after false tr'
  | (EvAudioPorts | EvPlayHandles) :: tr' => held_after held tr'
  end.

Section Engine.

(** Play handles, audio ports and sample buffers are handled through
    pointers; only their identity matters here. *)
Context {playHandle audioPort buffer fifoWriter : Type}.
Variable playHandle_eq_dec : forall x y : playHandle, {x = y} + {x <> y}.

(** Modelled from the spec: [fifoBuffer<surroundSampleFrame *>]
    (fifo_buffer.h is missing).  §4.4: the writer pushes a fully
    rendered buffer into the pool once a slot is free, and the consumer
    pulls the oldest completed buffer.  [fifo_slots] holds the completed
    buffers, oldest first; [fifo_size] is the depth of the pool. *)
Record fifo : Type := mkFifo {
  fifo_slots : list buffer;
  fifo_size : nat
}.

Definition fifo_empty (f : fifo) : bool :=
  match fifo_slots f with [] => true | _ :: _ => false end.

Definition fifo_full (f : fifo) : bool :=
  Nat.leb (fifo_size f) (length (fifo_slots f)).

(** [None]: no free slot, the writer has to wait. *)
Definition fifo_write (b : buffer) (f : fifo) : option fifo :=
  if fifo_full f then None
  else Some (mkFifo (fifo_slots f ++ [b]) (fifo_size f)).

(** [None]: no completed buffer, the call delivers nothing. *)
Definition fifo_read (f : fifo) : option (buffer * fifo) :=
  match fifo_slots f with
  | [] => None
  | b :: rest => Some (b, mkFifo rest (fifo_size f))
  end.

(** The members of [class mixer] that the operations below use. *)
Record mixer : Type := mkMixer {
  m_audioPorts : list audioPort;
  m_readBuffer : Z;
  m_writeBuffer : Z;
  m_analBuffer : Z;
  m_poolDepth : Z;
  m_playHandles : list playHandle;
  m_masterGain : Sample.sample_t;
  m_fifo : fifo;
  m_fifoWriter : option fifoWriter        (* [None] is NULL *)
}.

(** The mixer object, the play handles destroyed with [delete], and the
    trace of mutex and container events of the calling thread. *)
Record engine : Type := mkEngine {
  mix : mixer;
  deleted : list playHandle;
  trace : list event
}.

Definition set_audioPorts (l : list audioPort) (m : mixer) : mixer :=
  mkMixer l (m_readBuffer m) (m_writeBuffer m) (m_analBuffer m)
          (m_poolDepth m) (m_playHandles m) (m_masterGain m) (m_fifo m)
          (m_fifoWriter m).

Definition set_playHandles (l : list playHandle) (m : mixer) : mixer :=
  mkMixer (m_audioPorts m) (m_readBuffer m) (m_writeBuffer m)
          (m_analBuffer m) (m_poolDepth m) l (m_masterGain m) (m_fifo m)
          (m_fifoWriter m).

Definition set_masterGain (g : Sample.sample_t) (m : mixer) : mixer :=
  mkMixer (m_audioPorts m) (m_readBuffer m) (m_writeBuffer m)
          (m_analBuffer m) (m_poolDepth m) (m_playHandles m) g (m_fifo m)
          (m_fifoWriter m).

Definition set_fifo (f : fifo) (m : mixer) : mixer :=
  mkMixer (m_audioPorts m) (m_readBuffer m) (m_writeBuffer m)
          (m_analBuffer m) (m_poolDepth m) (m_playHandles m)
          (m_masterGain m) f (m_fifoWriter m).

Definition set_pool (r w a : Z) (m : mixer) : mixer :=
  mkMixer (m_audioPorts m) r w a (m_poolDepth m) (m_playHandles m)
          (m_masterGain m) (m_fifo m) (m_fifoWriter m).

(** *** A state monad over [engine] *)

Definition M (A : Type) : Type := engine -> A * engine.

Definition ret {A} (a : A) : M A := fun s => (a, s).

Definition bind {A B} (c : M A) (k : A -> M B) : M B :=
  fun s => let (a, s') := c s in k a s'.

Notation "x <- c ;; k" := (bind c (fun x => k))
  (at level 61, c at next level, right associativity).
Notation "c ;; k" := (bind c (fun _ => k))
  (at level 61, right associativity).

Definition emit (e : event) : M unit :=
  fun s => (tt, mkEngine (mix s) (deleted s) (trace s ++ [e])).

Definition modify (f : mixer -> mixer) : M unit :=
  fun s => (tt, mkEngine (f (mix s)) (deleted s) (trace s)).

Definition gets {A} (f : mixer -> A) : M A := fun s => (f (mix s), s).

(** [delete _ph] *)
Definition delete (ph : playHandle) : M unit :=
  fun s => (tt, mkEngine (mix s) (deleted s ++ [ph]) (trace s)).

(** [void lock( void )], [void unlock( void )] *)
Definition lock : M unit := emit EvLock.
Definition unlock : M unit := emit EvUnlock.

(** [m_audioPorts.push_back( _port )] *)
Definition audioPorts_push_back (port : audioPort) : M unit :=
  emit EvAudioPorts ;;
  modify (fun m => set_audioPorts (m_audioPorts m ++ [port]) m).

(** [m_playHandles.push_back( _ph )] *)
Definition playHandles_push_back (ph : playHandle) : M unit :=
  emit EvPlayHandles ;;
  modify (fun m => set_playHandles (m_playHandles m ++ [ph]) m).

(** [inline void addAudioPort( audioPort * _port )] *)
Definition addAudioPort (_port : audioPort) : M unit :=
  lock ;;
  audioPorts_push_back _port ;;
  unlock.

(** [bool criticalXRuns( void ) const] is declared in mixer.h and
    defined elsewhere: a parameter. *)
Variable criticalXRuns : mixer -> bool.

(** [inline bool addPlayHandle( playHandle * _ph )] *)
Definition addPlayHandle (_ph : playHandle) : M bool :=
  critical <- gets criticalXRuns ;;
  if Bool.eqb critical false then
    lock ;;
    playHandles_push_back _ph ;;
    unlock ;;
    ret true
  else
    delete _ph ;;
    ret false.

(** Modelled from the spec: [mixer::removePlayHandle] (declared in
    mixer.h, defined in mixer.cpp, which is missing).  §4.1: [remove(unit)]
    removes a specific unit under the global lock.  Operations here run
    between periods, where the deferred removal of §4.1 has taken
    effect, so the unit leaves [m_playHandles] in the same step.
    Destruction stays with the caller (§3). *)
Definition removePlayHandle (_ph : playHandle) : M unit :=
  lock ;;
  emit EvPlayHandles ;;
  modify (fun m =>
    set_playHandles (List.remove playHandle_eq_dec _ph (m_playHandles m)) m) ;;
  unlock.

(** [inline bool hasPlayHandles( void ) const] *)
Definition hasPlayHandles (m : mixer) : bool :=
  match m_playHandles m with [] => false | _ :: _ => true end.

(** [inline void setMasterGain( const float _mo )] *)
Definition setMasterGain (_mo : Sample.sample_t) : M unit :=
  modify (set_masterGain _mo).

(** [inline bool hasFifoWriter( void ) const]: [m_fifoWriter != NULL] *)
Definition hasFifoWriter (m : mixer) : bool :=
  match m_fifoWriter m with Some _ => true | None => false end.

(** The samples of one rendered period (the render core of mixer.cpp,
    which is missing): a parameter. *)
Variable renderPeriod : mixer -> buffer.

(** Modelled from the spec: the pool bookkeeping of
    [mixer::renderNextBuffer] (mixer.cpp is missing).  §3: the write,
    read and analysis roles rotate over the ring of [m_poolDepth]
    buffers, each index moving on by one slot per rendered period. *)
Definition rotatePool (m : mixer) : mixer :=
  set_pool ((m_readBuffer m + 1) mod m_poolDepth m)
           ((m_writeBuffer m + 1) mod m_poolDepth m)
           ((m_analBuffer m + 1) mod m_poolDepth m) m.

Definition renderNextBuffer : M buffer :=
  b <- gets renderPeriod ;;
  modify rotatePool ;;
  ret b.

(** [m_fifo->read()]: [None] when the fifo delivers nothing. *)
Definition fifo_read_call (s : engine) : option (buffer * engine) :=
  match fifo_read (m_fifo (mix s)) with
  | Some (b, f') =>
      Some (b, mkEngine (set_fifo f' (mix s)) (deleted s) (trace s))
  | None => None
  end.

(** [inline const surroundSampleFrame * nextBuffer( void )]:
    [hasFifoWriter() ? m_fifo->read() : renderNextBuffer()] *)
Definition nextBuffer (s : engine) : option (buffer * engine) :=
  if hasFifoWriter (mix s) then fifo_read_call s
  else Some (renderNextBuffer s).

(** Modelled from the spec: one round of the lookahead writer
    ([fifoWriter::run], mixer.cpp is missing).  §4.4: it waits until the
    pool has a free write slot, renders one full period and pushes it
    into the pool.  [None]: the writer is waiting. *)
Definition fifoWriter_round (s : engine) : option (buffer * engine) :=
  if fifo_full (m_fifo (mix s)) then None
  else
    let (b, s') := renderNextBuffer s in
    match fifo_write b (m_fifo (mix s')) with
    | Some f' =>
        Some (b, mkEngine (set_fifo f' (mix s')) (deleted s') (trace s'))
    | None => None
    end.

(** *** Runs of the engine *)

Inductive op : Type :=
| OpAddAudioPort (port : audioPort)
| OpAddPlayHandle (ph : playHandle)
| OpRemovePlayHandle (ph : playHandle)
| OpSetMasterGain (g : Sample.sample_t)
| OpNextBuffer
| OpFifoWriter.

(** What a step shows to the outside. *)
Inductive obs : Type :=
| Delivered (b : buffer)      (* returned by nextBuffer() *)
| Pushed (b : buffer)         (* rendered and pushed by the writer *)
| Silent.

(** An operation that has to wait leaves the engine as it is; the
    lookahead writer runs only where it exists. *)
Definition step (o : op) (s : engine) : obs * engine :=
  match o with
  | OpAddAudioPort p => (Silent, snd (addAudioPort p s))
  | OpAddPlayHandle ph => (Silent, snd (addPlayHandle ph s))
  | OpRemovePlayHandle ph => (Silent, snd (removePlayHandle ph s))
  | OpSetMasterGain g => (Silent, snd (setMasterGain g s))
  | OpNextBuffer =>
      match nextBuffer s with
      | Some (b, s') => (Delivered b, s')
      | None => (Silent, s)
      end
  | OpFifoWriter =>
      if hasFifoWriter (mix s) then
        match fifoWriter_round s with
        | Some (b, s') => (Pushed b, s')
        | None => (Silent, s)
        end
      else (Silent, s)
  end.

Fixpoint run (ops : list op) (s : engine) : list obs * engine :=
  match ops with
  | [] => ([], s)
  | o :: ops' =>
      let (x, s') := step o s in
      let (xs, s'') := run ops' s' in
      (x :: xs, s'')
  end.

Fixpoint delivered_of (xs : list obs) : list buffer :=
  match xs with
  | [] => []
  | Delivered b :: xs' => b :: delivered_of xs'
  | _ :: xs' => delivered_of xs'
  end.

Fixpoint pushed_of (xs : list obs) : list buffer :=
  match xs with
  | [] => []
  | Pushed b :: xs' => b :: pushed_of xs'
  | _ :: xs' => pushed_of xs'
  end.

Definition final (ops : list op) (s : engine) : engine := snd (run ops s).

(** A caller that submits the play handles [hs] one after the other and
    collects what [addPlayHandle] returns. *)
Fixpoint addPlayHandles (hs : list playHandle) : M (list bool) :=
  match hs with
  | [] => ret []
  | h :: hs' =>
      r <- addPlayHandle h ;;
      rs <- addPlayHandles hs' ;;
      ret (r :: rs)
  end.

(** The operations that mixer.h defines in full. *)
Definition registry_op (o : op) : bool :=
  match o with
  | OpAddAudioPort _ | OpAddPlayHandle _ | OpSetMasterGain _ => true
  | _ => false
  end.

(** The audio ports that a sequence of operations submits. *)
Fixpoint ports_of (ops : list op) : list audioPort :=
  match ops with
  | [] => []
  | OpAddAudioPort p :: ops' => p :: ports_of ops'
  | _ :: ops' => ports_of ops'
  end.

(** The handles of [hs] whose submission returned [b]. *)
Fixpoint answered (b : bool) (hs : list playHandle) (rs : list bool)
    : list playHandle :=
  match hs, rs with
  | h :: hs', r :: rs' =>
      if Bool.eqb r b then h :: answered b hs' rs' else answered b hs' rs'
  | _, _ => []
  end.

(* -------------------------------------------------------------- *)
(** *** Facts about the registry *)

Lemma guarded_app (held : bool) (t1 t2 : list event) :
  guarded held (t1 ++ t2)
  = guarded held t1 && guarded (held_after held t1) t2.
Proof.
  revert held. induction t1 as [|e t1 IH]; intros held; [reflexivity|].
  destruct e; simpl; rewrite ?IH; try reflexivity;
    now rewrite andb_assoc.
Qed.

(** C2.  In critical-overrun state [addPlayHandle] returns [false],
    destroys the handle and leaves the play-handle list as it was; in
    any other state it returns [true] and appends the handle to the
    list, the append being the only container change and lying between
    [lock()] and [unlock()], so that a trace in which every container
    change was under the lock stays such a trace. *)
Theorem addPlayHandle_backpressure (s : engine) (ph : playHandle) :
  (criticalXRuns (mix s) = true ->
     fst (addPlayHandle ph s) = false /\
     mix (snd (addPlayHandle ph s)) = mix s /\
     deleted (snd (addPlayHandle ph s)) = deleted s ++ [ph] /\
     trace (snd (addPlayHandle ph s)) = trace s)
  /\
  (criticalXRuns (mix s) = false ->
     fst (addPlayHandle ph s) = true /\
     m_playHandles (mix (snd (addPlayHandle ph s)))
       = m_playHandles (mix s) ++ [ph] /\
     mix (snd (addPlayHandle ph s))
       = set_playHandles (m_playHandles (mix s) ++ [ph]) (mix s) /\
     deleted (snd (addPlayHandle ph s)) = deleted s /\
     trace (snd (addPlayHandle ph s))
       = trace s ++ [EvLock; EvPlayHandles; EvUnlock] /\
     (forall held, guarded held (trace s) = true ->
        guarded held (trace (snd (addPlayHandle ph s))) = true)).
Proof.
  split; intros Hc; unfold addPlayHandle, bind, gets; rewrite Hc; simpl.
  - repeat split.
  - repeat split; [now rewrite <- !app_assoc|].
    intros held Hg. rewrite <- !app_assoc. simpl.
    rewrite guarded_app, Hg. reflexivity.
Qed.

(* -------------------------------------------------------------- *)
(** *** Buffer delivery *)

(** C1, as the code has it.  With a fifo writer [nextBuffer] is the
    fifo's read, whatever the pool holds: it returns the oldest completed
    buffer when there is one and delivers nothing from an empty pool,
    without rendering.  It renders on the calling thread exactly when
    there is no fifo writer. *)
Theorem nextBuffer_dispatch (s : engine) :
  (hasFifoWriter (mix s) = true -> nextBuffer s = fifo_read_call s) /\
  (hasFifoWriter (mix s) = true ->
     forall b rest, fifo_slots (m_fifo (mix s)) = b :: rest ->
     nextBuffer s =
       Some (b, mkEngine
                  (set_fifo (mkFifo rest (fifo_size (m_fifo (mix s)))) (mix s))
                  (deleted s) (trace s))) /\
  (hasFifoWriter (mix s) = true ->
     fifo_empty (m_fifo (mix s)) = true -> nextBuffer s = None) /\
  (hasFifoWriter (mix s) = false ->
     nextBuffer s = Some (renderNextBuffer s)).
Proof.
  unfold nextBuffer, fifo_read_call, fifo_read, fifo_empty.
  repeat split; intros H; rewrite H; try reflexivity.
  - intros b rest Hs. now rewrite Hs.
  - destruct (fifo_slots (m_fifo (mix s))); [reflexivity | discriminate].
Qed.

(** What one step does to the fifo, the fifo writer and the pool. *)
Lemma step_fifoWriter (o : op) (s : engine) :
  m_fifoWriter (mix (snd (step o s))) = m_fifoWriter (mix s).
Proof.
  destruct o; simpl; try reflexivity.
  - unfold addPlayHandle, bind, gets; simpl.
    destruct (criticalXRuns (mix s)); reflexivity.
  - unfold nextBuffer, fifo_read_call, fifo_read.
    destruct (hasFifoWriter (mix s)); [|reflexivity].
    destruct (fifo_slots (m_fifo (mix s))); reflexivity.
  - destruct (hasFifoWriter (mix s)); [|reflexivity].
    unfold fifoWriter_round, fifo_write; simpl.
    destruct (fifo_full (m_fifo (mix s))); reflexivity.
Qed.

Lemma step_fifo (o : op) (s : engine) :
  hasFifoWriter (mix s) = true ->
  match fst (step o s) with
  | Delivered b =>
      fifo_slots (m_fifo (mix s))
        = b :: fifo_slots (m_fifo (mix (snd (step o s))))
  | Pushed b =>
      fifo_slots (m_fifo (mix (snd (step o s))))
        = fifo_slots (m_fifo (mix s)) ++ [b]
  | Silent =>
      fifo_slots (m_fifo (mix (snd (step o s))))
        = fifo_slots (m_fifo (mix s))
  end.
Proof.
  intros Hw. destruct o; simpl; try reflexivity.
  - unfold addPlayHandle, bind, gets; simpl.
    destruct (criticalXRuns (mix s)); reflexivity.
  - unfold nextBuffer, fifo_read_call, fifo_read. rewrite Hw.
    destruct (fifo_slots (m_fifo (mix s))) eqn:E; simpl;
      [now rewrite E | reflexivity].
  - rewrite Hw. unfold fifoWriter_round, fifo_write; simpl.
    destruct (fifo_full (m_fifo (mix s))); reflexivity.
Qed.

Lemma run_cons (o : op) (ops : list op) (s : engine) :
  run (o :: ops) s
  = (fst (step o s) :: fst (run ops (snd (step o s))),
     snd (run ops (snd (step o s)))).
Proof.
  simpl. destruct (step o s) as [x s']; simpl.
  destruct (run ops s'); reflexivity.
Qed.

Lemma run_app (a b : list op) (s : engine) :
  run (a ++ b) s
  = (fst (run a s) ++ fst (run b (snd (run a s))),
     snd (run b (snd (run a s)))).
Proof.
  revert s. induction a as [|o a IH]; intros s.
  - simpl. destruct (run b s); reflexivity.
  - change ((o :: a) ++ b) with (o :: (a ++ b)).
    rewrite !run_cons, IH. reflexivity.
Qed.

Lemma delivered_of_app (xs ys : list obs) :
  delivered_of (xs ++ ys) = delivered_of xs ++ delivered_of ys.
Proof.
  induction xs as [|x xs IH]; [reflexivity|].
  destruct x; simpl; now rewrite IH.
Qed.

Lemma nextBuffer_oldest (s : engine) (b : buffer) (rest : list buffer) :
  hasFifoWriter (mix s) = true ->
  fifo_slots (m_fifo (mix s)) = b :: rest ->
  exists s',
    nextBuffer s = Some (b, s') /\
    fifo_slots (m_fifo (mix s')) = rest /\
    hasFifoWriter (mix s') = true.
Proof.
  intros Hw Hs. unfold nextBuffer, fifo_read_call, fifo_read.
  rewrite Hw, Hs. eexists. split; [reflexivity|]. split; [reflexivity|].
  exact Hw.
Qed.

Lemma drain_pool (l : list buffer) (s : engine) :
  hasFifoWriter (mix s) = true ->
  fifo_slots (m_fifo (mix s)) = l ->
  delivered_of (fst (run (repeat OpNextBuffer (List.length l)) s)) = l /\
  fifo_slots
    (m_fifo (mix (snd (run (repeat OpNextBuffer (List.length l)) s)))) = [].
Proof.
  revert s. induction l as [|b rest IH]; intros s Hw Hs.
  - simpl. split; [reflexivity|exact Hs].
  - change (repeat OpNextBuffer (List.length (b :: rest)))
      with (OpNextBuffer :: repeat OpNextBuffer (List.length rest)).
    rewrite run_cons.
    destruct (nextBuffer_oldest s b rest Hw Hs) as (s' & Hn & Hr & Hw').
    assert (Hstep : step OpNextBuffer s = (Delivered b, s'))
      by (simpl; now rewrite Hn).
    rewrite Hstep. cbn [fst snd delivered_of].
    destruct (IH s' Hw' Hr) as [Hd He].
    split; [now rewrite Hd | exact He].
Qed.

(** C8.  With lookahead enabled, [nextBuffer] on a pool that holds a
    buffer returns the oldest one and leaves the others in their order.
    Along any sequence of engine operations the buffers returned by
    [nextBuffer], in the order of return, followed by the buffers still
    in the pool, are the buffers the pool held at the start followed by
    the buffers the writer rendered and pushed, in the order of
    rendering; and calling [nextBuffer] once more for every buffer left in
    the pool returns all of them, so that every rendered buffer is
    returned, in the order of rendering, and the pool ends empty. *)
Theorem pool_delivers_fifo (ops : list op) (s : engine) :
  hasFifoWriter (mix s) = true ->
  (forall b rest,
     fifo_slots (m_fifo (mix s)) = b :: rest ->
     exists s',
       nextBuffer s = Some (b, s') /\
       fifo_slots (m_fifo (mix s')) = rest) /\
  delivered_of (fst (run ops s))
    ++ fifo_slots (m_fifo (mix (final ops s)))
  = fifo_slots (m_fifo (mix s)) ++ pushed_of (fst (run ops s)) /\
  delivered_of
    (fst (run (ops ++ repeat OpNextBuffer
                        (List.length
                           (fifo_slots (m_fifo (mix (final ops s))))))
              s))
  = fifo_slots (m_fifo (mix s)) ++ pushed_of (fst (run ops s)) /\
  fifo_slots
    (m_fifo
       (mix (final (ops ++ repeat OpNextBuffer
                             (List.length
                                (fifo_slots (m_fifo (mix (final ops s))))))
                   s)))
  = [].
Proof.
  intros Hw.
  assert (Hinv : forall ops s, hasFifoWriter (mix s) = true ->
            hasFifoWriter (mix (snd (run ops s))) = true /\
            delivered_of (fst (run ops s))
              ++ fifo_slots (m_fifo (mix (snd (run ops s))))
            = fifo_slots (m_fifo (mix s)) ++ pushed_of (fst (run ops s))).
  { clear. intros ops.
    induction ops as [|o ops IH]; intros s Hw.
    - simpl. split; [exact Hw|now rewrite app_nil_r].
    - rewrite run_cons; simpl.
      assert (Hw' : hasFifoWriter (mix (snd (step o s))) = true).
      { unfold hasFifoWriter in *. now rewrite step_fifoWriter. }
      destruct (IH _ Hw') as [Hwf IHe]. split; [exact Hwf|].
      pose proof (step_fifo o s Hw) as Hs.
      destruct (fst (step o s)) as [b|b|]; simpl.
      + rewrite Hs. simpl. now rewrite IHe.
      + rewrite IHe, Hs, <- app_assoc. reflexivity.
      + now rewrite IHe, Hs. }
  destruct (Hinv ops s Hw) as [Hwf He].
  split.
  { intros b rest Hs.
    destruct (nextBuffer_oldest s b rest Hw Hs) as (s' & Hn & Hr & _).
    exists s'. split; assumption. }
  unfold final. split; [exact He|].
  rewrite run_app. cbn [fst snd].
  destruct (drain_pool _ (snd (run ops s)) Hwf eq_refl) as [Hd Hempty].
  split; [|exact Hempty].
  rewrite delivered_of_app, Hd. exact He.
Qed.

(* -------------------------------------------------------------- *)
(** *** More about the registry *)

Lemma addPlayHandle_cases (s : engine) (ph : playHandle) :
  addPlayHandle ph s
  = if criticalXRuns (mix s)
    then (false, mkEngine (mix s) (deleted s ++ [ph]) (trace s))
    else (true,
          mkEngine (set_playHandles (m_playHandles (mix s) ++ [ph]) (mix s))
                   (deleted s)
                   (trace s ++ [EvLock; EvPlayHandles; EvUnlock])).
Proof.
  unfold addPlayHandle, bind, gets.
  destruct (criticalXRuns (mix s)); simpl; [reflexivity|].
  now rewrite <- !app_assoc.
Qed.

Lemma held_after_app (held : bool) (t1 t2 : list event) :
  held_after held (t1 ++ t2) = held_after (held_after held t1) t2.
Proof.
  revert held. induction t1 as [|e t1 IH]; intros held; [reflexivity|].
  destruct e; simpl; apply IH.
Qed.

Lemma addPlayHandles_cons (h : playHandle) (hs : list playHandle)
    (s : engine) :
  addPlayHandles (h :: hs) s
  = (fst (addPlayHandle h s)
       :: fst (addPlayHandles hs (snd (addPlayHandle h s))),
     snd (addPlayHandles hs (snd (addPlayHandle h s)))).
Proof.
  simpl. unfold bind at 1. destruct (addPlayHandle h s) as [r s1].
  unfold bind. simpl. destruct (addPlayHandles hs s1); reflexivity.
Qed.

(** Of the play handles submitted one after the other, those for which
    [addPlayHandle] returned true are appended to the play-handle list in
    the order of submission and those for which it returned false are
    destroyed in that order; every submitted handle is in exactly one of
    the two groups, and every change of the list stays under the lock. *)
Theorem addPlayHandles_partition (hs : list playHandle) (s : engine) :
  List.length (fst (addPlayHandles hs s)) = List.length hs /\
  m_playHandles (mix (snd (addPlayHandles hs s)))
    = m_playHandles (mix s) ++ answered true hs (fst (addPlayHandles hs s)) /\
  deleted (snd (addPlayHandles hs s))
    = deleted s ++ answered false hs (fst (addPlayHandles hs s)) /\
  Permutation hs (answered true hs (fst (addPlayHandles hs s))
                    ++ answered false hs (fst (addPlayHandles hs s))) /\
  (forall held, guarded held (trace s) = true ->
     guarded held (trace (snd (addPlayHandles hs s))) = true).
Proof.
  revert s. induction hs as [|h hs IH]; intros s.
  - simpl. rewrite !app_nil_r. repeat split; auto.
  - rewrite addPlayHandles_cons. cbn [fst snd].
    destruct (IH (snd (addPlayHandle h s))) as (Hl & Hp & Hd & Hperm & Hg).
    rewrite addPlayHandle_cases in *.
    destruct (criticalXRuns (mix s)); cbn [fst snd answered Bool.eqb] in *.
    + split; [simpl; now rewrite Hl|].
      split; [exact Hp|].
      split; [rewrite Hd; simpl; now rewrite <- app_assoc|].
      split; [now apply Permutation_cons_app|].
      exact Hg.
    + split; [simpl; now rewrite Hl|].
      split; [rewrite Hp; simpl; now rewrite <- app_assoc|].
      split; [exact Hd|].
      split; [simpl; now apply perm_skip|].
      intros held Hh. apply Hg. simpl.
      rewrite guarded_app, Hh. reflexivity.
Qed.

(** After [addPlayHandle] has returned true, [hasPlayHandles] is true;
    after it has returned false, [hasPlayHandles] is what it was. *)
Theorem addPlayHandle_hasPlayHandles (s : engine) (ph : playHandle) :
  (fst (addPlayHandle ph s) = true ->
     hasPlayHandles (mix (snd (addPlayHandle ph s))) = true) /\
  (fst (addPlayHandle ph s) = false ->
     hasPlayHandles (mix (snd (addPlayHandle ph s)))
       = hasPlayHandles (mix s)).
Proof.
  rewrite addPlayHandle_cases.
  destruct (criticalXRuns (mix s)); simpl; split; intros H;
    try discriminate; try reflexivity.
  unfold hasPlayHandles; simpl.
  destruct (m_playHandles (mix s)); reflexivity.
Qed.

Lemma registry_step (o : op) (s : engine) :
  registry_op o = true ->
  m_audioPorts (mix (snd (step o s)))
    = m_audioPorts (mix s) ++ ports_of [o] /\
  exists tr,
    trace (snd (step o s)) = trace s ++ tr /\
    (forall held, guarded held tr = true) /\
    (forall held, held_after held tr = held \/ held_after held tr = false).
Proof.
  destruct o; simpl; try discriminate; intros _.
  - split; [reflexivity|]. exists [EvLock; EvAudioPorts; EvUnlock].
    split; [now rewrite <- !app_assoc|]. split; [reflexivity|]. now right.
  - rewrite addPlayHandle_cases.
    destruct (criticalXRuns (mix s)); simpl; rewrite app_nil_r;
      (split; [reflexivity|]).
    + exists []. rewrite app_nil_r. repeat split. now left.
    + exists [EvLock; EvPlayHandles; EvUnlock].
      split; [reflexivity|]. split; [reflexivity|]. now right.
  - rewrite app_nil_r. split; [reflexivity|]. exists [].
    rewrite app_nil_r. repeat split. now left.
Qed.

(** Along any sequence of [addAudioPort], [addPlayHandle] and
    [setMasterGain] calls every audio port submitted is appended to the
    port list, in the order of submission and whatever [criticalXRuns]
    says; every change of a container stays between [lock()] and
    [unlock()]; and a mutex that was free at the start is free at the
    end. *)
Theorem registry_run_locking (ops : list op) (s : engine) (held : bool) :
  forallb registry_op ops = true ->
  m_audioPorts (mix (final ops s)) = m_audioPorts (mix s) ++ ports_of ops /\
  (guarded held (trace s) = true ->
     guarded held (trace (final ops s)) = true) /\
  (held_after held (trace s) = false ->
     held_after held (trace (final ops s)) = false).
Proof.
  unfold final. revert s.
  induction ops as [|o ops IH]; intros s Hall.
  - simpl. rewrite app_nil_r. auto.
  - simpl in Hall. apply andb_prop in Hall as [Ho Hall].
    rewrite run_cons; cbn [snd].
    destruct (IH (snd (step o s)) Hall) as (Hp & Hg & Hh).
    destruct (registry_step o s Ho) as (Hp1 & tr & Ht & Hgt & Hht).
    split.
    + rewrite Hp, Hp1, <- app_assoc. f_equal.
      destruct o; try discriminate; reflexivity.
    + split.
      * intros G. apply Hg. rewrite Ht, guarded_app, G. apply Hgt.
      * intros F. apply Hh. rewrite Ht, held_after_app, F.
        destruct (Hht false) as [E|E]; exact E.
Qed.

End Engine.

(** The theorems above at concrete engines: handles, ports and writers
    are numbered, a buffer is named by the pool slot it was rendered
    into. *)

Lemma addPlayHandle_backpressure_witness :
  let crit := fun m : @mixer nat nat Z nat =>
                Nat.leb 2 (length (m_playHandles m)) in
  let busy := mkEngine (mkMixer [] 0 1 1 2 [7; 8]%nat Sample.f_one
                                (mkFifo [] 4) None) [] [] in
  let idle := mkEngine (mkMixer [] 0 1 1 2 [7]%nat Sample.f_one
                                (mkFifo [] 4) None) [] [] in
  (fst (addPlayHandle crit 9%nat busy) = false /\
   m_playHandles (mix (snd (addPlayHandle crit 9%nat busy))) = [7; 8]%nat /\
   deleted (snd (addPlayHandle crit 9%nat busy)) = [9%nat])
  /\
  (fst (addPlayHandle crit 9%nat idle) = true /\
   m_playHandles (mix (snd (addPlayHandle crit 9%nat idle))) = [7; 9]%nat /\
   trace (snd (addPlayHandle crit 9%nat idle))
     = [EvLock; EvPlayHandles; EvUnlock]).
Proof.
  intros crit busy idle. split.
  - destruct (proj1 (addPlayHandle_backpressure crit busy 9%nat) eq_refl)
      as (Hr & Hm & Hd & _).
    rewrite Hr, Hm, Hd. repeat split.
  - destruct (proj2 (addPlayHandle_backpressure crit idle 9%nat) eq_refl)
      as (Hr & Hl & _ & _ & Ht & _).
    rewrite Hr, Hl, Ht. repeat split.
Defined.

Lemma nextBuffer_dispatch_witness :
  let render := fun m : @mixer nat nat Z nat => m_writeBuffer m in
  let waiting := mkEngine (mkMixer [] 0 1 1 2 [] Sample.f_one
                                   (mkFifo [] 4) (Some 1%nat)) [] [] in
  let ahead := mkEngine (mkMixer [] 0 1 1 2 [] Sample.f_one
                                 (mkFifo [1; 0] 4) (Some 1%nat)) [] [] in
  let direct := mkEngine (mkMixer [] 0 1 1 2 [] Sample.f_one
                                  (mkFifo [] 4) None) [] [] in
  nextBuffer render waiting = None /\
  nextBuffer render ahead
    = Some (1, mkEngine (mkMixer [] 0 1 1 2 [] Sample.f_one
                                 (mkFifo [0] 4) (Some 1%nat)) [] []) /\
  nextBuffer render direct = Some (renderNextBuffer render direct).
Proof.
  intros render waiting ahead direct.
  destruct (nextBuffer_dispatch render waiting) as (_ & _ & Hempty & _).
  destruct (nextBuffer_dispatch render ahead) as (_ & Hhead & _ & _).
  destruct (nextBuffer_dispatch render direct) as (_ & _ & _ & Hsync).
  split; [exact (Hempty eq_refl eq_refl)|].
  split; [exact (Hhead eq_refl 1 [0] eq_refl) | exact (Hsync eq_refl)].
Defined.

(** C1, as the spec words it, fails: with a fifo writer and an empty pool
    [nextBuffer] is not the synchronous render. *)
Lemma nextBuffer_empty_pool_no_fallback :
  ~ (forall (render : @mixer nat nat Z nat -> Z) (s : engine),
       hasFifoWriter (mix s) = false \/ fifo_empty (m_fifo (mix s)) = true ->
       nextBuffer render s = Some (renderNextBuffer render s)).
Proof.
  intros H.
  specialize (H (fun m => m_writeBuffer m)
                (mkEngine (mkMixer [] 0 1 1 2 [] Sample.f_one
                                   (mkFifo [] 4) (Some 1%nat)) [] [])
                (or_intror eq_refl)).
  discriminate H.
Qed.

Lemma pool_delivers_fifo_witness :
  let s : @engine nat nat Z nat :=
    mkEngine (mkMixer [] 0 1 1 4 [] Sample.f_one (mkFifo [] 2) (Some 1%nat))
             [] [] in
  let ops : list (@op nat nat) :=
    [OpFifoWriter; OpFifoWriter; OpFifoWriter; OpNextBuffer; OpFifoWriter;
     OpAddPlayHandle 3%nat] in
  let crit := fun _ : @mixer nat nat Z nat => false in
  let render := fun m : @mixer nat nat Z nat => m_writeBuffer m in
  delivered_of
    (fst (run Nat.eq_dec crit render
            (ops ++ repeat OpNextBuffer
                      (List.length
                         (fifo_slots
                            (m_fifo
                               (mix (final Nat.eq_dec crit render ops s))))))
            s))
  = fifo_slots (m_fifo (mix s))
    ++ pushed_of (fst (run Nat.eq_dec crit render ops s)).
Proof.
  intros s ops crit render.
  exact (proj1 (proj2 (proj2
           (pool_delivers_fifo Nat.eq_dec crit render ops s eq_refl)))).
Defined.

Lemma addPlayHandles_partition_witness :
  let crit := fun m : @mixer nat nat Z nat =>
                Nat.leb 2 (List.length (m_playHandles m)) in
  let s : @engine nat nat Z nat :=
    mkEngine (mkMixer [] 0 1 1 2 [7%nat] Sample.f_one (mkFifo [] 4) None)
             [] [] in
  let hs := [8; 9; 10]%nat in
  guarded false (trace (snd (addPlayHandles crit hs s))) = true.
Proof.
  intros crit s hs.
  destruct (addPlayHandles_partition crit hs s) as (_ & _ & _ & _ & Hg).
  apply Hg. reflexivity.
Defined.

Lemma addPlayHandle_hasPlayHandles_witness :
  let s : @engine nat nat Z nat :=
    mkEngine (mkMixer [] 0 1 1 2 [] Sample.f_one (mkFifo [] 4) None) [] [] in
  hasPlayHandles (mix (snd (addPlayHandle (fun _ => false) 8%nat s))) = true
  /\
  hasPlayHandles (mix (snd (addPlayHandle (fun _ => true) 8%nat s)))
    = hasPlayHandles (mix s).
Proof.
  intros s. split.
  - exact (proj1 (addPlayHandle_hasPlayHandles (fun _ => false) s 8%nat)
             eq_refl).
  - exact (proj2 (addPlayHandle_hasPlayHandles (fun _ => true) s 8%nat)
             eq_refl).
Defined.

Lemma registry_run_locking_witness :
  let crit := fun m : @mixer nat nat Z nat =>
                Nat.leb 1 (List.length (m_playHandles m)) in
  let render := fun m : @mixer nat nat Z nat => m_writeBuffer m in
  let s : @engine nat nat Z nat :=
    mkEngine (mkMixer [] 0 1 1 2 [] Sample.f_one (mkFifo [] 4) None) [] [] in
  let ops : list (@op nat nat) :=
    [OpAddPlayHandle 8%nat; OpAddAudioPort 1%nat; OpAddPlayHandle 9%nat;
     OpAddAudioPort 2%nat] in
  m_audioPorts (mix (final Nat.eq_dec crit render ops s))
    = m_audioPorts (mix s) ++ ports_of ops /\
  guarded false (trace (final Nat.eq_dec crit render ops s)) = true /\
  held_after false (trace (final Nat.eq_dec crit render ops s)) = false.
Proof.
  intros crit render s ops.
  destruct (registry_run_locking Nat.eq_dec crit render ops s false eq_refl)
    as (Hp & Hg & Hh).
  split; [exact Hp|]. split; [exact (Hg eq_refl) | exact (Hh eq_refl)].
Defined.

End Mixer.

(* ================================================================== *)
(** ** Facts about [clip] *)

Module ClipFacts.
Import Sample.

(** The constants are the binary32 values they stand for. *)
Lemma constants_binary32 :
  f_one = SFone prec emax /\
  f_minus_one = SFopp f_one /\
  f_0_6 = SFdiv prec emax (binary_normalize prec emax 6 0 false)
                          (binary_normalize prec emax 10 0 false) /\
  f_1_2 = SFdiv prec emax (binary_normalize prec emax 12 0 false)
                          (binary_normalize prec emax 10 0 false) /\
  forallb (valid_binary prec emax) [f_one; f_minus_one; f_0_6; f_1_2] = true.
Proof. repeat split. Qed.

Lemma SFcompare_antisym (x y : spec_float) :
  SFcompare x y = option_map CompOpp (SFcompare y x).
Proof.
  destruct x as [sx|sx| |sx mx ex], y as [sy|sy| |sy my ey]; simpl;
    try reflexivity;
    try (destruct sx; reflexivity); try (destruct sy; reflexivity);
    try (destruct sx, sy; reflexivity).
  f_equal.
  destruct sx, sy; try reflexivity;
    rewrite (Z.compare_antisym ey ex);
    destruct (ey ?= ex) eqn:E; simpl; try reflexivity;
    rewrite (Pos.compare_cont_antisym my mx Eq); simpl;
    try rewrite CompOpp_involutive; reflexivity.
Qed.

Lemma SFcompare_total (x y : spec_float) :
  is_nan x = false -> is_nan y = false -> exists c, SFcompare x y = Some c.
Proof.
  destruct x, y; simpl; intros Hx Hy; try discriminate; eauto.
Qed.

(** [a > b] false on numbers means [a <= b]. *)
Lemma not_fgt_fle (a b : sample_t) :
  is_nan a = false -> is_nan b = false -> fgt a b = false -> fle a b = true.
Proof.
  intros Ha Hb. unfold fgt, fle, SFltb, SFleb.
  rewrite (SFcompare_antisym a b).
  destruct (SFcompare_total b a Hb Ha) as [c ->]; simpl.
  destruct c; simpl; intros H; try reflexivity; discriminate.
Qed.

Lemma not_flt_fle (a b : sample_t) :
  is_nan a = false -> is_nan b = false -> flt a b = false -> fle b a = true.
Proof. intros Ha Hb. apply (not_fgt_fle b a Hb Ha). Qed.

(** [a <= b] excludes [a > b]. *)
Lemma fle_not_fgt (a b : sample_t) : fle a b = true -> fgt a b = false.
Proof.
  unfold fgt, fle, SFltb, SFleb. rewrite (SFcompare_antisym b a).
  destruct (SFcompare a b) as [[]|]; simpl; intros H;
    try reflexivity; discriminate.
Qed.

Lemma in_unit_range_not_nan (s : sample_t) :
  in_unit_range s = true -> is_nan s = false.
Proof. destruct s; simpl; intros H; try reflexivity; discriminate. Qed.

Lemma clip_range (s : sample_t) :
  is_nan s = false -> in_unit_range (clip s) = true.
Proof.
  intros Hs. unfold clip.
  destruct (fgt s f_one) eqn:Hhi; [reflexivity|].
  destruct (flt s f_minus_one) eqn:Hlo; [reflexivity|].
  unfold in_unit_range.
  rewrite (not_flt_fle s f_minus_one Hs eq_refl Hlo).
  now rewrite (not_fgt_fle s f_one Hs eq_refl Hhi).
Qed.

Lemma clip_fixes_range (s : sample_t) :
  in_unit_range s = true -> clip s = s.
Proof.
  unfold in_unit_range. intros H. apply andb_prop in H as [Hlo Hhi].
  unfold clip. rewrite (fle_not_fgt s f_one Hhi).
  change (flt s f_minus_one) with (fgt f_minus_one s).
  now rewrite (fle_not_fgt f_minus_one s Hlo).
Qed.

(** C3, as the spec words it, fails: NaN is a sample value, [clip]
    returns it as it is, and it lies in no interval. *)
Lemma clip_nan_escapes :
  ~ (forall s : sample_t, in_unit_range (clip s) = true).
Proof. intros H. specialize (H S754_nan). discriminate H. Qed.

(** C3, as the code has it.  For every sample that is not NaN, [clip]
    yields a value in [-1.0, 1.0]; NaN is returned unchanged.  Every
    sample in [-1.0, 1.0], the two bounds included, is returned unchanged.
    Two units at 0.6 on one port with volume 1.0 and master gain 1.0 mix to
    1.2, which clips to exactly 1.0. *)
Theorem clip_bounded (s : sample_t) :
  (is_nan s = false -> in_unit_range (clip s) = true) /\
  (is_nan s = true -> clip s = s) /\
  (in_unit_range s = true -> clip s = s) /\
  clip f_one = f_one /\
  clip f_minus_one = f_minus_one /\
  mix2 f_0_6 f_0_6 f_one f_one = f_1_2 /\
  clip (mix2 f_0_6 f_0_6 f_one f_one) = f_one.
Proof.
  split; [apply clip_range|].
  split; [destruct s; simpl; intros H; try discriminate; reflexivity|].
  split; [apply clip_fixes_range|].
  repeat split; vm_compute; reflexivity.
Qed.

Lemma clip_bounded_witness :
  in_unit_range (clip (S754_infinity false)) = true /\
  clip S754_nan = S754_nan /\
  clip (S754_zero true) = S754_zero true.
Proof.
  split; [exact (proj1 (clip_bounded (S754_infinity false)) eq_refl)|].
  split; [exact (proj1 (proj2 (clip_bounded S754_nan)) eq_refl)|].
  exact (proj1 (proj2 (proj2 (clip_bounded (S754_zero true)))) eq_refl).
Defined.

End ClipFacts.

(* ================================================================== *)
(** ** Facts about the quality settings *)

Module QualityFacts.
Import qualitySettings.

(** C4.  The Draft preset has linear interpolation and no oversampling,
    its sample-rate multiplier is 1 and the processing sample rate is the
    output sample rate; the FinalMix preset has 8x oversampling, its
    multiplier is 8 and at an output rate of 44100 the processing sample
    rate is 352800. *)
Theorem presets_sample_rate (uninit : t) (outputSampleRate : Z) :
  interpolation (of_Mode uninit Mode_Draft) = Interpolation_Linear /\
  oversampling (of_Mode uninit Mode_Draft) = Oversampling_None /\
  sampleRateMultiplier (of_Mode uninit Mode_Draft) = 1 /\
  processingSampleRate outputSampleRate (of_Mode uninit Mode_Draft)
    = outputSampleRate /\
  oversampling (of_Mode uninit Mode_FinalMix) = Oversampling_8x /\
  sampleRateMultiplier (of_Mode uninit Mode_FinalMix) = 8 /\
  processingSampleRate 44100 (of_Mode uninit Mode_FinalMix) = 352800.
Proof.
  repeat split. unfold processingSampleRate; simpl. apply Z.mul_1_r.
Qed.

(** C5.  Whatever integer the [oversampling] member holds, one of the
    four enumerators or not, [sampleRateMultiplier] returns 1, 2, 4 or 8. *)
Theorem sampleRateMultiplier_range (q : t) :
  In (sampleRateMultiplier q) [1; 2; 4; 8].
Proof.
  unfold sampleRateMultiplier.
  destruct (oversampling q) as [|p|p]; simpl; auto.
  destruct p as [p|p|]; simpl; auto; destruct p; simpl; auto.
Qed.

(** C10.  [libsrcInterpolation] maps Interpolation_Linear to
    SRC_ZERO_ORDER_HOLD (which is not SRC_LINEAR, the two identifiers
    being different), Interpolation_SincFastest to SRC_SINC_FASTEST,
    Interpolation_SincMedium to SRC_SINC_MEDIUM_QUALITY and
    Interpolation_SincBest to SRC_SINC_BEST_QUALITY. *)
Theorem libsrcInterpolation_table
    (SRC_SINC_BEST_QUALITY SRC_SINC_MEDIUM_QUALITY SRC_SINC_FASTEST
     SRC_ZERO_ORDER_HOLD SRC_LINEAR : Z) (q : t) :
  let conv := libsrcInterpolation SRC_SINC_BEST_QUALITY
                SRC_SINC_MEDIUM_QUALITY SRC_SINC_FASTEST
                SRC_ZERO_ORDER_HOLD SRC_LINEAR in
  (interpolation q = Interpolation_Linear ->
     conv q = SRC_ZERO_ORDER_HOLD /\
     (SRC_ZERO_ORDER_HOLD <> SRC_LINEAR -> conv q <> SRC_LINEAR)) /\
  (interpolation q = Interpolation_SincFastest ->
     conv q = SRC_SINC_FASTEST) /\
  (interpolation q = Interpolation_SincMedium ->
     conv q = SRC_SINC_MEDIUM_QUALITY) /\
  (interpolation q = Interpolation_SincBest ->
     conv q = SRC_SINC_BEST_QUALITY).
Proof.
  unfold libsrcInterpolation; cbv zeta.
  split.
  - intros H; rewrite H. split; [reflexivity | intros Hne; exact Hne].
  - split; [|split]; intros H; rewrite H; reflexivity.
Qed.

(** The table at libsamplerate's identifiers (best 0, medium 1, fastest 2,
    zero-order hold 3, linear 4) and the four interpolation settings. *)
Lemma libsrcInterpolation_table_witness :
  let conv := libsrcInterpolation 0 1 2 3 4 in
  (conv (mk Interpolation_Linear Oversampling_None false false) = 3 /\
   conv (mk Interpolation_Linear Oversampling_None false false) <> 4) /\
  conv (mk Interpolation_SincFastest Oversampling_2x true false) = 2 /\
  conv (mk Interpolation_SincMedium Oversampling_4x true false) = 1 /\
  conv (mk Interpolation_SincBest Oversampling_8x true true) = 0.
Proof.
  intros conv.
  pose proof (libsrcInterpolation_table 0 1 2 3 4) as T.
  split.
  - destruct (proj1 (T (mk Interpolation_Linear Oversampling_None false false))
                eq_refl) as [He Hne].
    split; [exact He | apply Hne; discriminate].
  - split; [exact (proj1 (proj2 (T (mk Interpolation_SincFastest Oversampling_2x true false))) eq_refl)|].
    split; [exact (proj1 (proj2 (proj2 (T (mk Interpolation_SincMedium Oversampling_4x true false)))) eq_refl)|].
    exact (proj2 (proj2 (proj2 (T (mk Interpolation_SincBest Oversampling_8x true true)))) eq_refl).
Defined.

End QualityFacts.

(* ================================================================== *)
(** ** More about [clip] *)

Module ClipOrder.
Import Sample ClipFacts.

Ltac sf_cases :=
  repeat match goal with
  | |- context [Pos.compare_cont Eq ?a ?b] =>
      change (Pos.compare_cont Eq a b) with (Pos.compare a b)
  | H : context [Pos.compare_cont Eq ?a ?b] |- _ =>
      change (Pos.compare_cont Eq a b) with (Pos.compare a b) in H
  end;
  repeat match goal with
  | H : context [Z.compare ?a ?b] |- _ =>
      destruct (Z.compare_spec a b); simpl in H; try discriminate H
  | |- context [Z.compare ?a ?b] =>
      destruct (Z.compare_spec a b); simpl
  | H : context [Pos.compare ?a ?b] |- _ =>
      destruct (Pos.compare_spec a b); simpl in H; try discriminate H
  | |- context [Pos.compare ?a ?b] =>
      destruct (Pos.compare_spec a b); simpl
  end;
  try reflexivity; try discriminate; try lia.

Lemma SFleb_trans (a b c : spec_float) :
  SFleb a b = true -> SFleb b c = true -> SFleb a c = true.
Proof.
  unfold SFleb.
  destruct a as [sa|sa| |sa ma ea], b as [sb|sb| |sb mb eb],
           c as [sc|sc| |sc mc ec]; simpl; try discriminate; try reflexivity;
    try (destruct sa); try (destruct sb); try (destruct sc); simpl;
    try discriminate; try reflexivity; intros H1 H2; sf_cases.
Qed.

Lemma SFltb_leb_trans (a b c : spec_float) :
  SFltb a b = true -> SFleb b c = true -> SFltb a c = true.
Proof.
  unfold SFleb, SFltb.
  destruct a as [sa|sa| |sa ma ea], b as [sb|sb| |sb mb eb],
           c as [sc|sc| |sc mc ec]; simpl; try discriminate; try reflexivity;
    try (destruct sa); try (destruct sb); try (destruct sc); simpl;
    try discriminate; try reflexivity; intros H1 H2; sf_cases.
Qed.

Lemma SFleb_ltb_trans (a b c : spec_float) :
  SFleb a b = true -> SFltb b c = true -> SFltb a c = true.
Proof.
  unfold SFleb, SFltb.
  destruct a as [sa|sa| |sa ma ea], b as [sb|sb| |sb mb eb],
           c as [sc|sc| |sc mc ec]; simpl; try discriminate; try reflexivity;
    try (destruct sa); try (destruct sb); try (destruct sc); simpl;
    try discriminate; try reflexivity; intros H1 H2; sf_cases.
Qed.

Lemma SFcompare_opp (a b : spec_float) :
  SFcompare (SFopp a) (SFopp b) = SFcompare b a.
Proof.
  destruct a as [sa|sa| |sa ma ea], b as [sb|sb| |sb mb eb]; simpl;
    try reflexivity;
    try (destruct sa); try (destruct sb); simpl; try reflexivity;
    f_equal; rewrite (Z.compare_antisym ea eb);
    destruct (ea ?= eb); simpl; try reflexivity.
  all: first [ exact (Pos.compare_cont_antisym ma mb Eq)
             | symmetry; exact (Pos.compare_cont_antisym mb ma Eq) ].
Qed.

(** Clipping a second time changes nothing, for every sample, NaN
    included. *)
Theorem clip_idempotent (s : sample_t) : clip (clip s) = clip s.
Proof.
  destruct (is_nan s) eqn:E.
  - destruct s; try discriminate. reflexivity.
  - apply clip_fixes_range. now apply clip_range.
Qed.

(** [clip] keeps the order of samples: of two samples the smaller one
    is not clipped to more than the larger one. *)
Theorem clip_monotone (a b : sample_t) :
  fle a b = true -> fle (clip a) (clip b) = true.
Proof.
  intros Hab.
  assert (Na : is_nan a = false)
    by (destruct a; try reflexivity; destruct b; discriminate).
  assert (Nb : is_nan b = false)
    by (destruct b; try reflexivity; destruct a; discriminate).
  unfold clip.
  destruct (fgt a f_one) eqn:Ha1.
  - replace (fgt b f_one) with true; [reflexivity|].
    symmetry. exact (SFltb_leb_trans f_one a b Ha1 Hab).
  - destruct (flt a f_minus_one) eqn:Ha2.
    + destruct (fgt b f_one) eqn:Hb1; [reflexivity|].
      destruct (flt b f_minus_one) eqn:Hb2; [reflexivity|].
      now apply not_flt_fle.
    + destruct (fgt b f_one) eqn:Hb1; [now apply not_fgt_fle|].
      destruct (flt b f_minus_one) eqn:Hb2; [|exact Hab].
      pose proof (SFleb_ltb_trans a b f_minus_one Hab Hb2) as F.
      unfold flt in Ha2. congruence.
Qed.

Lemma fgt_opp (s : sample_t) : fgt (SFopp s) f_one = flt s f_minus_one.
Proof.
  unfold fgt, flt, SFltb. change f_one with (SFopp f_minus_one).
  now rewrite SFcompare_opp.
Qed.

Lemma flt_opp (s : sample_t) : flt (SFopp s) f_minus_one = fgt s f_one.
Proof.
  unfold fgt, flt, SFltb. change f_minus_one with (SFopp f_one).
  now rewrite SFcompare_opp.
Qed.

Lemma SFltb_leb (a b : spec_float) : SFltb a b = true -> SFleb a b = true.
Proof.
  unfold SFltb, SFleb. destruct (SFcompare a b) as [[]|];
    intros H; try reflexivity; discriminate.
Qed.

(** [clip] is symmetric about 0: the clipped value of the negated
    sample is the negated clipped value. *)
Theorem clip_odd (s : sample_t) : clip (SFopp s) = SFopp (clip s).
Proof.
  unfold clip. rewrite fgt_opp, flt_opp.
  destruct (fgt s f_one) eqn:A, (flt s f_minus_one) eqn:B; try reflexivity.
  exfalso.
  pose proof (SFltb_leb_trans f_one s f_minus_one A (SFltb_leb _ _ B)) as F.
  vm_compute in F. discriminate F.
Qed.

Lemma clip_monotone_witness :
  fle (clip f_0_6) (clip f_1_2) = true.
Proof. exact (clip_monotone f_0_6 f_1_2 eq_refl). Defined.

End ClipOrder.

(* ================================================================== *)
(** ** More about the quality settings *)

Module QualityMore.
Import qualitySettings.

(** For the four enumerators of [Oversampling] the sample-rate multiplier
    is 2 to the power of the enumerator; for every other value of the
    member it is 1. *)
Theorem sampleRateMultiplier_power (q : t) :
  (0 <= oversampling q <= 3 ->
     sampleRateMultiplier q = 2 ^ oversampling q) /\
  (oversampling q < 0 \/ 3 < oversampling q ->
     sampleRateMultiplier q = 1).
Proof.
  unfold sampleRateMultiplier.
  destruct (oversampling q) as [|[[p|p|]|[p|p|]|]|p]; simpl;
    split; intros H; try reflexivity; lia.
Qed.

Lemma sampleRateMultiplier_power_witness :
  sampleRateMultiplier (mk Interpolation_SincMedium Oversampling_4x true false)
    = 2 ^ 2 /\
  sampleRateMultiplier (mk Interpolation_Linear 7 false false) = 1.
Proof.
  split.
  - apply (proj1 (sampleRateMultiplier_power
                    (mk Interpolation_SincMedium Oversampling_4x true false))).
    simpl. unfold Oversampling_4x. lia.
  - apply (proj2 (sampleRateMultiplier_power
                    (mk Interpolation_Linear 7 false false))).
    simpl. lia.
Defined.

(** When SRC_LINEAR differs from the other four converter identifiers,
    [libsrcInterpolation] returns it for the values of the
    [interpolation] member outside the four enumerators and for no
    enumerator. *)
Theorem libsrcInterpolation_linear
    (SRC_SINC_BEST_QUALITY SRC_SINC_MEDIUM_QUALITY SRC_SINC_FASTEST
     SRC_ZERO_ORDER_HOLD SRC_LINEAR : Z) (q : t) :
  SRC_LINEAR <> SRC_SINC_BEST_QUALITY ->
  SRC_LINEAR <> SRC_SINC_MEDIUM_QUALITY ->
  SRC_LINEAR <> SRC_SINC_FASTEST ->
  SRC_LINEAR <> SRC_ZERO_ORDER_HOLD ->
  (libsrcInterpolation SRC_SINC_BEST_QUALITY SRC_SINC_MEDIUM_QUALITY
     SRC_SINC_FASTEST SRC_ZERO_ORDER_HOLD SRC_LINEAR q = SRC_LINEAR
   <-> ~ (0 <= interpolation q <= 3)).
Proof.
  intros Hb Hm Hf Hz. unfold libsrcInterpolation.
  destruct (interpolation q) as [|[[p|p|]|[p|p|]|]|p]; simpl;
    split; intros H; try reflexivity; try lia; try congruence;
    exfalso; apply H; lia.
Qed.

Lemma libsrcInterpolation_linear_witness :
  libsrcInterpolation 0 1 2 3 4 (mk (-1) Oversampling_None false false) = 4
  <-> ~ (0 <= -1 <= 3).
Proof.
  apply (libsrcInterpolation_linear 0 1 2 3 4
           (mk (-1) Oversampling_None false false)); discriminate.
Defined.

(** For the three preset modes the constructor yields settings that do
    not depend on what the storage held, with both enumerations inside
    their enumerators; for any other mode it assigns nothing. *)
Theorem of_Mode_presets (uninit uninit' : t) (_m : Mode) :
  (Mode_Draft <= _m <= Mode_FinalMix ->
     of_Mode uninit _m = of_Mode uninit' _m /\
     0 <= interpolation (of_Mode uninit _m) <= 3 /\
     0 <= oversampling (of_Mode uninit _m) <= 3) /\
  (_m < Mode_Draft \/ Mode_FinalMix < _m -> of_Mode uninit _m = uninit).
Proof.
  unfold Mode_Draft, Mode_FinalMix, of_Mode.
  destruct _m as [|[[p|p|]|[p|p|]|]|p]; simpl;
    split; intros H; try reflexivity; try lia;
    (split; [reflexivity|]);
    unfold Interpolation_Linear, Interpolation_SincFastest,
           Interpolation_SincBest, Oversampling_None, Oversampling_2x,
           Oversampling_8x; lia.
Qed.

Lemma of_Mode_presets_witness :
  of_Mode (mk 9 9 false false) Mode_HighQuality
    = of_Mode (mk 0 0 true true) Mode_HighQuality /\
  of_Mode (mk 9 9 false false) 5 = mk 9 9 false false.
Proof.
  split.
  - apply (proj1 (of_Mode_presets (mk 9 9 false false) (mk 0 0 true true)
                    Mode_HighQuality)).
    unfold Mode_Draft, Mode_HighQuality, Mode_FinalMix. lia.
  - apply (proj2 (of_Mode_presets (mk 9 9 false false) (mk 0 0 true true) 5)).
    unfold Mode_FinalMix. lia.
Defined.

End QualityMore.

(* ================================================================== *)
(** ** Facts about tracks and their content objects *)

Module TrackFacts.
Import Track.

Lemma erase_first_absent (t : tco) (l : list tco) :
  ~ In t l -> erase_first t l = l.
Proof.
  induction l as [|x r IH]; simpl; intros H; [reflexivity|].
  destruct (Nat.eqb_spec x t) as [E|E]; [exfalso; auto|].
  f_equal. apply IH. tauto.
Qed.

Lemma erase_first_app_absent (t : tco) (l r : list tco) :
  ~ In t l -> erase_first t (l ++ t :: r) = l ++ r.
Proof.
  induction l as [|x l IH]; simpl; intros H.
  - now rewrite Nat.eqb_refl.
  - destruct (Nat.eqb_spec x t) as [E|E]; [exfalso; auto|].
    f_equal. apply IH. tauto.
Qed.

Lemma erase_first_present (t : tco) (l : list tco) :
  In t l ->
  exists l1 l2, l = l1 ++ t :: l2 /\ ~ In t l1 /\ erase_first t l = l1 ++ l2.
Proof.
  induction l as [|x r IH]; simpl; intros H; [contradiction|].
  destruct (Nat.eqb_spec x t) as [E|E].
  - subst. exists [], r. simpl. tauto.
  - destruct H as [H|H]; [contradiction|].
    destruct (IH H) as (l1 & l2 & -> & Hn & He).
    exists (x :: l1), l2. simpl. rewrite He. repeat split.
    intros [F|F]; auto.
Qed.

(** Removing a content object that the track does not hold changes
    nothing, so adding a new object and removing it again gives the vector
    back; removing an object the track holds takes out its first entry and
    nothing else: the entries in front of it and the entries behind it,
    further entries for the same object among them, stay in their
    order. *)
Theorem removeTCO_first_entry (l : list tco) (t : tco) :
  (~ In t l -> removeTCO l t = l /\ removeTCO (addTCO l t) t = l) /\
  (forall l1 l2,
     l = l1 ++ t :: l2 -> ~ In t l1 -> removeTCO l t = l1 ++ l2) /\
  (In t l ->
     (exists l1 l2,
        l = l1 ++ t :: l2 /\ ~ In t l1 /\ removeTCO l t = l1 ++ l2) /\
     numOfTCOs (removeTCO l t) = numOfTCOs l - 1 /\
     forall x, count_occ Nat.eq_dec (removeTCO l t) x
               = if Nat.eqb x t
                 then pred (count_occ Nat.eq_dec l x)
                 else count_occ Nat.eq_dec l x).
Proof.
  unfold removeTCO, addTCO, numOfTCOs. split; [|split].
  - intros Hn. split; [now apply erase_first_absent|].
    rewrite erase_first_app_absent by assumption. apply app_nil_r.
  - intros l1 l2 -> Hn. now apply erase_first_app_absent.
  - intros Hin.
    destruct (erase_first_present t l Hin) as (l1 & l2 & El & Hn & Ee).
    split; [exists l1, l2; repeat split; assumption|].
    rewrite Ee, El. split.
    + rewrite !length_app. simpl. lia.
    + intros x. unfold tco in *. rewrite !count_occ_app.
      destruct (Nat.eqb_spec x t) as [E|E].
      * subst x. rewrite (count_occ_cons_eq Nat.eq_dec l2 eq_refl).
        rewrite (proj1 (count_occ_not_In Nat.eq_dec l1 t) Hn). reflexivity.
      * rewrite (count_occ_cons_neq Nat.eq_dec l2) by congruence.
        reflexivity.
Qed.

Lemma find_index_nth (t : tco) (l : list tco) (i : nat) :
  find_index t l = Some i ->
  nth_error l i = Some t /\ (i < List.length l)%nat /\
  forall j, (j < i)%nat -> nth_error l j <> Some t.
Proof.
  revert i. induction l as [|x r IH]; simpl; intros i H; [discriminate|].
  destruct (Nat.eqb_spec x t) as [E|E].
  - injection H as <-. subst. repeat split; [lia|]. intros j Hj; lia.
  - destruct (find_index t r) as [k|]; [|discriminate].
    injection H as <-. destruct (IH k eq_refl) as (Hn & Hl & Hm).
    repeat split; [exact Hn | lia |].
    intros [|j] Hj; simpl; [congruence|]. apply Hm. lia.
Qed.

Lemma find_index_none (t : tco) (l : list tco) :
  find_index t l = None <-> ~ In t l.
Proof.
  induction l as [|x r IH]; simpl; [tauto|].
  destruct (Nat.eqb_spec x t) as [E|E].
  - split; [discriminate | intros H; exfalso; auto].
  - destruct (find_index t r); simpl.
    + split; [discriminate|]. intros H. exfalso. apply H. right.
      destruct IH as [_ IH]. 
      destruct (in_dec Nat.eq_dec t r) as [I|I]; [exact I|].
      specialize (IH I). discriminate.
    + split; [|reflexivity]. intros _ [F|F]; [auto|]. now apply IH.
Qed.

(** [getTCO] finds again every content object at the number that
    [getTCONum] gives for it, which is the number of its first entry.
    For an object the track does not hold [getTCONum] answers 0, the
    number of the first entry. *)
Theorem getTCO_getTCONum (tpt : Z) (l : list tco) (t : tco) :
  (In t l ->
     getTCO tpt l (getTCONum l t) = Existing t /\
     0 <= getTCONum l t < numOfTCOs l /\
     forall i, 0 <= i < getTCONum l t -> getTCO tpt l i <> Existing t) /\
  (~ In t l ->
     getTCONum l t = 0 /\
     getTCO tpt l (getTCONum l t)
       = match l with [] => Created 0 | x :: _ => Existing x end).
Proof.
  unfold getTCONum, getTCO, vec_at, numOfTCOs. split.
  - intros Hin. destruct (find_index t l) as [i|] eqn:E.
    + destruct (find_index_nth t l i E) as (Hn & Hl & Hm).
      repeat split; try lia.
      * replace (Z.of_nat i <? Z.of_nat (List.length l)) with true
          by (symmetry; apply Z.ltb_lt; lia).
        replace (0 <=? Z.of_nat i) with true
          by (symmetry; apply Z.leb_le; lia).
        simpl. now rewrite Nat2Z.id, Hn.
      * intros j Hj.
        replace (j <? Z.of_nat (List.length l)) with true
          by (symmetry; apply Z.ltb_lt; lia).
        replace (0 <=? j) with true by (symmetry; apply Z.leb_le; lia).
        simpl. destruct (nth_error l (Z.to_nat j)) as [y|] eqn:Ey;
          [|discriminate].
        intros F. injection F as ->.
        apply (Hm (Z.to_nat j)); [lia | exact Ey].
    + apply find_index_none in E. contradiction.
  - intros Hn. apply find_index_none in Hn. rewrite Hn.
    split; [reflexivity|]. destruct l as [|x r]; reflexivity.
Qed.

Lemma insert_by_start_perm (sp : tco -> Z) (s : Z) (t : tco) (v : list tco) :
  Permutation (insert_by_start sp s t v) (t :: v).
Proof.
  induction v as [|x r IH]; simpl; [reflexivity|].
  destruct (sp x >=? s); [reflexivity|].
  rewrite IH. apply perm_swap.
Qed.

Lemma insert_by_start_ordered (sp : tco -> Z) (t : tco) (v : list tco) :
  ordered sp v -> ordered sp (insert_by_start sp (sp t) t v).
Proof.
  induction v as [|x r IH]; simpl; intros Ho.
  - split; [intros y []|exact I].
  - destruct Ho as [Hx Hr].
    destruct (sp x >=? sp t) eqn:E.
    + simpl. split; [|split; assumption].
      intros y [<-|Hy]; [lia|]. specialize (Hx y Hy). lia.
    + simpl. split; [|now apply IH].
      intros y Hy.
      apply (Permutation_in _ (insert_by_start_perm sp (sp t) t r)) in Hy.
      destruct Hy as [<-|Hy]; [lia|now apply Hx].
Qed.

Lemma getTCOsInRange_perm (sp ep : tco -> Z) (l v : list tco) (start end_ : Z) :
  Permutation (getTCOsInRange sp ep l v start end_)
              (v ++ filter (overlaps sp ep start end_) l).
Proof.
  unfold getTCOsInRange. revert v.
  induction l as [|t l IH]; intros v; simpl.
  - now rewrite app_nil_r.
  - rewrite IH. unfold overlaps at 2.
    destruct ((sp t <=? end_) && (ep t >=? start)).
    + rewrite insert_by_start_perm. simpl.
      apply Permutation_middle.
    + reflexivity.
Qed.

Lemma getTCOsInRange_ordered (sp ep : tco -> Z) (l v : list tco) (start end_ : Z) :
  ordered sp v -> ordered sp (getTCOsInRange sp ep l v start end_).
Proof.
  unfold getTCOsInRange. revert v.
  induction l as [|t l IH]; intros v Ho; simpl; [exact Ho|].
  apply IH. destruct ((sp t <=? end_) && (ep t >=? start)); [|exact Ho].
  now apply insert_by_start_ordered.
Qed.

(** [getTCOsInRange] keeps a vector that is in the order of the start
    positions in that order, so called with an empty vector it returns the
    content objects by start position, earliest first. *)
Theorem getTCOsInRange_sorted (startPosition endPosition : tco -> Z)
    (l tcoV : list tco) (start end_ : Z) :
  ordered startPosition tcoV ->
  ordered startPosition
    (getTCOsInRange startPosition endPosition l tcoV start end_).
Proof. apply getTCOsInRange_ordered. Qed.

(** [getTCOsInRange] adds to the vector, once per entry of the track,
    the content objects that start no later than [end] and end no earlier
    than [start]: every object that meets the range, also one that lies in
    it only in part, and no other. *)
Theorem getTCOsInRange_overlapping (startPosition endPosition : tco -> Z)
    (l tcoV : list tco) (start end_ : Z) :
  Permutation
    (getTCOsInRange startPosition endPosition l tcoV start end_)
    (tcoV ++ filter (fun t => (startPosition t <=? end_)
                              && (endPosition t >=? start)) l)
  /\
  forall t,
    In t (getTCOsInRange startPosition endPosition l [] start end_) <->
    In t l /\ startPosition t <= end_ /\ start <= endPosition t.
Proof.
  split; [apply getTCOsInRange_perm|].
  intros t. split.
  - intros H. apply (Permutation_in _ (getTCOsInRange_perm _ _ _ _ _ _)) in H.
    simpl in H. apply filter_In in H. destruct H as [Hi Ho].
    unfold overlaps in Ho. apply andb_prop in Ho. destruct Ho as [H1 H2].
    apply Z.leb_le in H1. apply Z.geb_le in H2. split; [exact Hi | lia].
  - intros (Hi & Hs & He).
    apply (Permutation_in _ (Permutation_sym (getTCOsInRange_perm _ _ _ _ _ _))).
    simpl. apply filter_In. split; [exact Hi|].
    unfold overlaps. apply andb_true_intro.
    split; [apply Z.leb_le | apply Z.geb_le]; lia.
Qed.

Lemma movePosition_at (h : positions) (t : tco) (pos : Z) (x : tco) :
  movePosition h t pos x = if Nat.eqb x t then pos else h x.
Proof.
  unfold movePosition, set_pos.
  destruct (Z.eqb_spec (h t) pos) as [E|E]; simpl; [|reflexivity].
  destruct (Nat.eqb_spec x t) as [->|]; [exact E|reflexivity].
Qed.

Lemma iter_shift {A} (f : A -> A) (n : nat) (v : A) :
  Nat.iter n f (f v) = f (Nat.iter n f v).
Proof. induction n as [|n IH]; simpl; [reflexivity|now rewrite IH]. Qed.

Lemma fold_visits (step : Z -> Z) (l : list tco) (h : positions) (x : tco) :
  fold_left (fun h t => movePosition h t (step (h t))) l h x
  = Nat.iter (count_occ Nat.eq_dec l x) step (h x).
Proof.
  revert h. induction l as [|t l IH]; intros h; simpl; [reflexivity|].
  rewrite IH, movePosition_at.
  destruct (Nat.eq_dec t x) as [->|N].
  - rewrite Nat.eqb_refl. simpl. now rewrite iter_shift.
  - destruct (Nat.eqb_spec x t) as [->|_]; [contradiction|reflexivity].
Qed.

Lemma insertTact_visits (tpt : Z) (l : list tco) (h : positions) (pos : Z) (x : tco) :
  insertTact tpt l h pos x
  = Nat.iter (count_occ Nat.eq_dec l x) (later tpt pos) (h x).
Proof.
  rewrite <- fold_visits. unfold insertTact, later.
  revert h. induction l as [|t l IH]; intros h; simpl; [reflexivity|].
  rewrite <- IH. f_equal.
  destruct (h t >=? pos) eqn:E; [reflexivity|].
  unfold movePosition. now rewrite Z.eqb_refl.
Qed.

Lemma removeTact_visits (tpt : Z) (l : list tco) (h : positions) (pos : Z) (x : tco) :
  removeTact tpt l h pos x
  = Nat.iter (count_occ Nat.eq_dec l x) (earlier tpt pos) (h x).
Proof.
  rewrite <- fold_visits. unfold removeTact, earlier.
  revert h. induction l as [|t l IH]; intros h; simpl; [reflexivity|].
  rewrite <- IH. f_equal.
  destruct (h t >=? pos) eqn:E; [reflexivity|].
  unfold movePosition. now rewrite Z.eqb_refl.
Qed.

Lemma iter_later (tpt pos v : Z) (k : nat) :
  0 <= tpt ->
  Nat.iter k (later tpt pos) v
  = if v >=? pos then v + Z.of_nat k * tpt else v.
Proof.
  intros Ht. induction k as [|k IH].
  - simpl. destruct (v >=? pos); lia.
  - rewrite Nat2Z.inj_succ. simpl. rewrite IH. unfold later.
    destruct (v >=? pos) eqn:E; [|now rewrite E].
    apply Z.geb_le in E.
    replace (v + Z.of_nat k * tpt >=? pos) with true
      by (symmetry; apply Z.geb_le; nia).
    lia.
Qed.

(** [insertTact] leaves every content object that starts before [pos]
    where it is and moves every other one later by one bar for each entry
    the track holds for it: by exactly one bar when the entries are
    distinct, and not at all when the track does not hold it. *)
Theorem insertTact_moves (tpt : Z) (l : list tco) (h : positions) (pos : Z) :
  0 <= tpt ->
  (forall t, In t l ->
     h t + Z.of_nat (count_occ Nat.eq_dec l t) * tpt <= int_max) ->
  forall t,
    insertTact tpt l h pos t
    = if h t >=? pos
      then h t + Z.of_nat (count_occ Nat.eq_dec l t) * tpt
      else h t.
Proof.
  intros Ht _ t. rewrite insertTact_visits. now apply iter_later.
Qed.

Lemma iter_earlier_back (tpt pos v : Z) (k : nat) :
  0 <= tpt -> 0 <= pos -> pos <= v ->
  Nat.iter k (earlier tpt pos) (v + Z.of_nat k * tpt) = v.
Proof.
  intros Ht Hp Hv. induction k as [|k IH].
  - simpl. lia.
  - change (Nat.iter (S k) (earlier tpt pos) (v + Z.of_nat (S k) * tpt))
      with (earlier tpt pos
              (Nat.iter k (earlier tpt pos) (v + Z.of_nat (S k) * tpt))).
    rewrite <- iter_shift.
    assert (E : earlier tpt pos (v + Z.of_nat (S k) * tpt)
                = v + Z.of_nat k * tpt).
    { unfold earlier.
      replace (v + Z.of_nat (S k) * tpt >=? pos) with true
        by (symmetry; apply Z.geb_le; nia).
      nia. }
    rewrite E. exact IH.
Qed.

(** Taking out at [pos] the bar that [insertTact] has put in at [pos]
    brings every content object back to where it started, for a position
    that is not negative. *)
Theorem removeTact_insertTact (tpt : Z) (l : list tco) (h : positions)
    (pos : Z) :
  0 <= tpt -> 0 <= pos ->
  (forall t, In t l ->
     h t + Z.of_nat (count_occ Nat.eq_dec l t) * tpt <= int_max) ->
  forall t, removeTact tpt l (insertTact tpt l h pos) pos t = h t.
Proof.
  intros Ht Hp _ t.
  rewrite removeTact_visits, insertTact_visits, iter_later by assumption.
  destruct (h t >=? pos) eqn:E.
  - apply Z.geb_le in E. now apply iter_earlier_back.
  - clear -E. induction (count_occ Nat.eq_dec l t) as [|k IH];
      simpl; [reflexivity|].
    rewrite IH. unfold earlier. now rewrite E.
Qed.

Lemma iter_earlier_nonneg (tpt pos v : Z) (k : nat) :
  pos <= v -> 0 <= Nat.iter (S k) (earlier tpt pos) v.
Proof.
  intros Hv. induction k as [|k IH].
  - simpl. unfold earlier.
    replace (v >=? pos) with true by (symmetry; apply Z.geb_le; lia). lia.
  - change (Nat.iter (S (S k)) (earlier tpt pos) v)
      with (earlier tpt pos (Nat.iter (S k) (earlier tpt pos) v)).
    unfold earlier at 1.
    destruct (Nat.iter (S k) (earlier tpt pos) v >=? pos); lia.
Qed.

(** As long as no subtraction leaves the range of [int], [removeTact]
    moves no content object that starts before [pos], moves none that the
    track does not hold, and leaves every object of the track that starts
    at [pos] or later at a start position that is not negative: one bar
    earlier, or at 0 when less than a bar was left. *)
Theorem removeTact_moves (tpt : Z) (l : list tco) (h : positions) (pos : Z)
    (t : tco) :
  0 <= tpt <= int_max ->
  (forall x, In x l -> - int_max <= h x - tpt /\ h x <= int_max) ->
  (h t < pos -> removeTact tpt l h pos t = h t) /\
  (~ In t l -> removeTact tpt l h pos t = h t) /\
  (In t l -> pos <= h t -> 0 <= removeTact tpt l h pos t <= int_max) /\
  (count_occ Nat.eq_dec l t = 1%nat -> pos <= h t ->
     removeTact tpt l h pos t = Z.max (h t - tpt) 0).
Proof.
  intros Ht Hrange.
  rewrite removeTact_visits. repeat split.
  - intros Hlt. induction (count_occ Nat.eq_dec l t) as [|k IH];
      simpl; [reflexivity|].
    rewrite IH. unfold earlier.
    replace (h t >=? pos) with false; [reflexivity|].
    symmetry. rewrite Z.geb_leb. apply Z.leb_gt. lia.
  - intros Hn. apply (count_occ_not_In Nat.eq_dec) in Hn.
    unfold tco in *. now rewrite Hn.
  - apply (count_occ_In Nat.eq_dec) in H.
    unfold tco in *.
    destruct (count_occ Nat.eq_dec l t) as [|k]; [lia|].
    now apply iter_earlier_nonneg.
  - destruct (Hrange t H) as [_ Hmax].
    assert (Hub : forall k v, v <= int_max ->
              Nat.iter k (earlier tpt pos) v <= int_max).
    { clear - Ht. unfold int_max in *. induction k as [|k IH]; intros v Hv;
        simpl; [exact Hv|].
      specialize (IH v Hv).
      set (w := Nat.iter k (earlier tpt pos) v) in *. unfold earlier.
      destruct (w >=? pos); lia. }
    now apply Hub.
  - intros Hc Hv. unfold tco in *. rewrite Hc. simpl. unfold earlier.
    replace (h t >=? pos) with true by (symmetry; apply Z.geb_le; lia).
    reflexivity.
Qed.

Lemma fold_last_end (ep : tco -> Z) (l : list tco) (a : Z) :
  let L := fold_left (fun last t => if ep t >? last then ep t else last) l a in
  a <= L /\ (forall t, In t l -> ep t <= L) /\
  (L = a \/ exists t, In t l /\ ep t = L).
Proof.
  revert a. induction l as [|x r IH]; intros a; simpl.
  - split; [lia|]. split; [intros t []|now left].
  - specialize (IH (if ep x >? a then ep x else a)). simpl in IH.
    destruct IH as (Hle & Hall & Hex).
    destruct (ep x >? a) eqn:E.
    + apply Z.gtb_lt in E. split; [lia|]. split.
      * intros t [<-|Ht]; [lia|now apply Hall].
      * right. destruct Hex as [->|(t & Ht & Et)]; eauto.
    + assert (ep x <= a)
        by (destruct (Z.gtb_spec (ep x) a); [discriminate|lia]).
      split; [lia|]. split.
      * intros t [<-|Ht]; [lia|now apply Hall].
      * destruct Hex as [->|(t & Ht & Et)]; [now left|right; eauto].
Qed.

(** For a positive number of ticks per bar, [length] is 0 for a track
    without content objects and is never negative; every content object of
    the track ends before the bar after [length]; and when [length] is not
    0, some content object of the track ends in bar [length] or on its
    border. *)
Theorem length_bounds (endPosition : tco -> Z) (tpt : Z) (l : list tco) :
  0 < tpt ->
  length endPosition tpt [] = 0 /\
  0 <= length endPosition tpt l /\
  (forall t, In t l -> endPosition t < (length endPosition tpt l + 1) * tpt) /\
  (0 < length endPosition tpt l ->
     exists t, In t l /\
       length endPosition tpt l * tpt <= endPosition t
         < (length endPosition tpt l + 1) * tpt).
Proof.
  intros Ht. unfold length, last_end.
  destruct (fold_last_end endPosition l 0) as (H0 & Hall & Hex).
  simpl in *.
  set (L := fold_left _ l 0) in *.
  assert (Hq : L ÷ tpt = L / tpt) by (apply Z.quot_div_nonneg; lia).
  pose proof (Z.div_mod L tpt ltac:(lia)) as Hdm.
  pose proof (Z.mod_pos_bound L tpt Ht) as Hmb.
  pose proof (Z.div_pos L tpt H0 Ht) as Hd.
  split; [apply Z.quot_0_l; lia|].
  rewrite Hq. split; [exact Hd|]. split.
  - intros t Hin. specialize (Hall t Hin). nia.
  - intros Hpos. destruct Hex as [E|(t & Hin & Et)].
    + exfalso. rewrite E in *. rewrite Z.div_0_l in Hpos; lia.
    + exists t. split; [exact Hin|]. rewrite Et. nia.
Qed.

Lemma set_at_length (l : list tco) (i : nat) (x : tco) :
  List.length (set_at l i x) = List.length l.
Proof.
  revert i. induction l as [|y r IH]; intros [|i]; simpl; auto.
Qed.

Lemma set_at_nth (l : list tco) (i j : nat) (x : tco) :
  (i < List.length l)%nat ->
  nth_error (set_at l i x) j = if Nat.eqb j i then Some x else nth_error l j.
Proof.
  revert i j. induction l as [|y r IH]; intros i j Hi; simpl in Hi; [lia|].
  destruct i as [|i], j as [|j]; simpl; try reflexivity.
  apply IH. lia.
Qed.

Lemma vec_at_some (l : list tco) (i : Z) (t : tco) :
  vec_at l i = Some t ->
  0 <= i < numOfTCOs l /\ nth_error l (Z.to_nat i) = Some t.
Proof.
  unfold vec_at, numOfTCOs.
  destruct (Z.leb_spec 0 i), (Z.ltb_spec i (Z.of_nat (List.length l)));
    simpl; try discriminate.
  intros Hn. split; [lia|exact Hn].
Qed.

Lemma vec_at_in_range (l : list tco) (i : Z) :
  0 <= i < numOfTCOs l -> vec_at l i = nth_error l (Z.to_nat i).
Proof.
  unfold vec_at, numOfTCOs. intros Hr.
  destruct (Z.leb_spec 0 i), (Z.ltb_spec i (Z.of_nat (List.length l)));
    simpl; try lia. reflexivity.
Qed.

Lemma vec_at_set_at (l : list tco) (i j : Z) (x : tco) :
  0 <= i < numOfTCOs l ->
  vec_at (set_at l (Z.to_nat i) x) j
  = if j =? i then Some x else vec_at l j.
Proof.
  intros Hi. unfold vec_at, numOfTCOs in *. rewrite set_at_length.
  destruct (Z.leb_spec 0 j), (Z.ltb_spec j (Z.of_nat (List.length l)));
    simpl; try (destruct (Z.eqb_spec j i); [lia|reflexivity]).
  rewrite set_at_nth by lia.
  destruct (Z.eqb_spec j i) as [->|N].
  - now rewrite Nat.eqb_refl.
  - destruct (Nat.eqb_spec (Z.to_nat j) (Z.to_nat i)); [lia|reflexivity].
Qed.

(** [swapPositionOfTCOs] needs both numbers inside the vector.  It then
    exchanges the two entries and their start positions: each of the two
    content objects ends up at the other's number and at the other's start
    position, every other entry and every other object stay as they
    were. *)
Theorem swapPositionOfTCOs_exchange (l : list tco) (h : positions)
    (tcoNum1 tcoNum2 : Z) (a b : tco) :
  vec_at l tcoNum1 = Some a ->
  vec_at l tcoNum2 = Some b ->
  exists l' h',
    swapPositionOfTCOs l h tcoNum1 tcoNum2 = Some (l', h') /\
    vec_at l' tcoNum1 = Some b /\
    vec_at l' tcoNum2 = Some a /\
    (forall k, k <> tcoNum1 -> k <> tcoNum2 -> vec_at l' k = vec_at l k) /\
    numOfTCOs l' = numOfTCOs l /\
    h' a = h b /\
    h' b = h a /\
    (forall x, x <> a -> x <> b -> h' x = h x).
Proof.
  intros Ha Hb.
  destruct (vec_at_some _ _ _ Ha) as [R1 _].
  destruct (vec_at_some _ _ _ Hb) as [R2 _].
  set (l1 := set_at l (Z.to_nat tcoNum1) b).
  set (l' := set_at l1 (Z.to_nat tcoNum2) a).
  assert (L1 : numOfTCOs l1 = numOfTCOs l)
    by (unfold numOfTCOs, l1; now rewrite set_at_length).
  assert (V : forall k, vec_at l' k
                = if k =? tcoNum2 then Some a
                  else if k =? tcoNum1 then Some b else vec_at l k).
  { intros k. unfold l'. rewrite vec_at_set_at by lia.
    destruct (k =? tcoNum2); [reflexivity|].
    unfold l1. now rewrite vec_at_set_at by lia. }
  assert (V1 : vec_at l' tcoNum1 = Some b).
  { rewrite V, Z.eqb_refl. destruct (Z.eqb_spec tcoNum1 tcoNum2) as [E|E];
      [|reflexivity]. subst. congruence. }
  assert (V2 : vec_at l' tcoNum2 = Some a) by (now rewrite V, Z.eqb_refl).
  exists l', (movePosition (movePosition h b (h a)) a (h b)).
  split.
  { unfold swapPositionOfTCOs. rewrite Ha, Hb. fold l1. fold l'.
    now rewrite V1, V2. }
  split; [exact V1|]. split; [exact V2|]. split.
  { intros k N1 N2. rewrite V.
    destruct (Z.eqb_spec k tcoNum2); [contradiction|].
    destruct (Z.eqb_spec k tcoNum1); [contradiction|reflexivity]. }
  split.
  { unfold numOfTCOs, l', l1. now rewrite !set_at_length. }
  rewrite !movePosition_at. rewrite !Nat.eqb_refl.
  split; [reflexivity|]. split.
  - destruct (Nat.eqb_spec b a) as [->|_]; reflexivity.
  - intros x Na Nb. rewrite !movePosition_at.
    destruct (Nat.eqb_spec x a); [contradiction|].
    destruct (Nat.eqb_spec x b); [contradiction|reflexivity].
Qed.

Lemma solo_on_fold (this : track) (tl : list track) (f : flags) :
  NoDup tl ->
  let f' := fold_left (solo_on_step this) tl f in
  forall x,
    (In x tl ->
       muted f' x = negb (Nat.eqb x this) /\
       mutedBeforeSolo f' x = muted f x /\
       solo f' x = if Nat.eqb x this then solo f x else false) /\
    (~ In x tl ->
       muted f' x = muted f x /\
       mutedBeforeSolo f' x = mutedBeforeSolo f x /\
       solo f' x = solo f x).
Proof.
  intros Hnd. revert f. induction Hnd as [|t r Hnot Hnd IH]; intros f f' x.
  - simpl in *. split; [intros []|intros _; repeat split].
  - simpl in f'. specialize (IH (solo_on_step this f t) x).
    cbv zeta in IH. fold f' in IH. destruct IH as [IHin IHout].
    assert (Hother : x <> t ->
              muted (solo_on_step this f t) x = muted f x /\
              mutedBeforeSolo (solo_on_step this f t) x = mutedBeforeSolo f x /\
              solo (solo_on_step this f t) x = solo f x).
    { intros N. unfold solo_on_step, set_flag; simpl.
      destruct (negb (t =? this)%nat);
        destruct (Nat.eqb_spec x t); try contradiction; repeat split. }
    split.
    + intros [<-|Hin].
      * destruct (IHout Hnot) as (Hm & Hb & Hs).
        rewrite Hm, Hb, Hs. unfold solo_on_step, set_flag; simpl.
        rewrite Nat.eqb_refl.
        destruct (Nat.eqb_spec t this); simpl;
          rewrite ?Nat.eqb_refl; repeat split.
      * assert (N : x <> t) by (intros ->; contradiction).
        destruct (IHin Hin) as (Hm & Hb & Hs).
        destruct (Hother N) as (Om & Ob & Os).
        rewrite Hm, Hb, Hs, Om, Os. repeat split.
    + intros Hn.
      assert (N : x <> t) by (intros ->; apply Hn; now left).
      assert (Hr : ~ In x r) by (intros F; apply Hn; now right).
      destruct (IHout Hr) as (Hm & Hb & Hs).
      destruct (Hother N) as (Om & Ob & Os).
      rewrite Hm, Hb, Hs, Om, Ob, Os. repeat split.
Qed.

Lemma soloBefore_false (this : track) (tl : list track) (f : flags) :
  (forall t, In t tl -> t <> this -> solo f t = false) ->
  existsb (fun t => negb (Nat.eqb t this) && solo f t) tl = false.
Proof.
  intros H. induction tl as [|t r IH]; simpl; [reflexivity|].
  rewrite IH by (intros; apply H; [now right|assumption]).
  destruct (Nat.eqb_spec t this); simpl; [reflexivity|].
  rewrite H; [reflexivity|now left|assumption].
Qed.

Lemma fold_left_pointwise {A B} (F G : A -> B -> A) (l : list B) (a : A) :
  (forall x y, F x y = G x y) -> fold_left F l a = fold_left G l a.
Proof.
  intros E. revert a. induction l as [|y l IH]; intros a; simpl;
    [reflexivity|]. now rewrite E, IH.
Qed.

Lemma toggleSolo_on (this : track) (tl : list track) (f : flags) :
  solo f this = true ->
  (forall t, In t tl -> t <> this -> solo f t = false) ->
  toggleSolo this tl f = fold_left (solo_on_step this) tl f.
Proof.
  intros Hs Ho. unfold toggleSolo. rewrite Hs, (soloBefore_false _ _ _ Ho).
  simpl. apply fold_left_pointwise. intros g t. unfold solo_on_step.
  destruct (negb (t =? this)%nat); reflexivity.
Qed.

Lemma unsolo_fold (tl : list track) (f : flags) :
  let f' := fold_left unsolo_step tl f in
  (forall x, mutedBeforeSolo f' x = mutedBeforeSolo f x) /\
  (forall x, solo f' x = solo f x) /\
  (forall x, In x tl -> muted f' x = mutedBeforeSolo f x) /\
  (forall x, ~ In x tl -> muted f' x = muted f x).
Proof.
  revert f. induction tl as [|t r IH]; intros f f'.
  - simpl in *. repeat split; intros x []; reflexivity.
  - simpl in f'. specialize (IH (unsolo_step f t)). cbv zeta in IH.
    fold f' in IH. destruct IH as (Hb & Hs & Hin & Hout).
    repeat split; intros x.
    + now rewrite Hb.
    + now rewrite Hs.
    + intros Hx. destruct (in_dec Nat.eq_dec x r) as [I|I].
      * now rewrite Hin.
      * rewrite Hout by assumption. destruct Hx as [<-|Hx]; [|contradiction].
        unfold unsolo_step, set_flag; simpl. now rewrite Nat.eqb_refl.
    + intros Hx. rewrite Hout by (intros F; apply Hx; now right).
      unfold unsolo_step, set_flag; simpl. destruct (Nat.eqb_spec x t) as [->|];
        [exfalso; apply Hx; now left|reflexivity].
Qed.

Lemma toggleSolo_off (this : track) (tl : list track) (f : flags) :
  solo f this = false ->
  (forall t, In t tl -> t <> this -> solo f t = false) ->
  toggleSolo this tl f = fold_left unsolo_step tl f.
Proof.
  intros Hs Ho. unfold toggleSolo. rewrite Hs, (soloBefore_false _ _ _ Ho).
  simpl. apply fold_left_pointwise. intros g t. reflexivity.
Qed.

(** When a track of the container goes solo while no other track is
    solo, [toggleSolo] unmutes it, mutes every other track of the
    container and remembers for every track whether it was muted. *)
Theorem toggleSolo_solo_on (this : track) (tl : list track) (f : flags) :
  NoDup tl ->
  solo f this = true ->
  (forall t, In t tl -> t <> this -> solo f t = false) ->
  forall t, In t tl ->
    muted (toggleSolo this tl f) t = negb (Nat.eqb t this) /\
    mutedBeforeSolo (toggleSolo this tl f) t = muted f t /\
    solo (toggleSolo this tl f) t = Nat.eqb t this.
Proof.
  intros Hnd Hs Ho t Hin. rewrite toggleSolo_on by assumption.
  destruct (proj1 (solo_on_fold this tl f Hnd t) Hin) as (Hm & Hb & Hso).
  rewrite Hm, Hb, Hso. repeat split.
  destruct (Nat.eqb_spec t this) as [->|]; [exact Hs|reflexivity].
Qed.

(** Solo on and off again gives every track of the container the mute
    state it had: [toggleSolo] after the track went solo, then
    [toggleSolo] after it stopped being solo, with no other track solo. *)
Theorem toggleSolo_round_trip (this : track) (tl : list track) (f : flags) :
  NoDup tl ->
  solo f this = true ->
  (forall t, In t tl -> t <> this -> solo f t = false) ->
  let f1 := toggleSolo this tl f in
  let f_off := mkFlags (set_flag (solo f1) this false) (muted f1)
                       (mutedBeforeSolo f1) in
  forall t, In t tl -> muted (toggleSolo this tl f_off) t = muted f t.
Proof.
  intros Hnd Hs Ho f1 f_off t Hin.
  assert (Hoff : forall x, In x tl -> x <> this -> solo f_off x = false).
  { intros x Hx N. unfold f_off, set_flag; simpl.
    destruct (Nat.eqb_spec x this); [contradiction|].
    destruct (toggleSolo_solo_on this tl f Hnd Hs Ho x Hx) as (_ & _ & E).
    fold f1 in E. rewrite E. now apply Nat.eqb_neq. }
  rewrite toggleSolo_off; [| |exact Hoff].
  - destruct (unsolo_fold tl f_off) as (_ & _ & Hm & _).
    rewrite Hm by assumption. unfold f_off; simpl.
    now destruct (toggleSolo_solo_on this tl f Hnd Hs Ho t Hin) as (_ & E & _).
  - unfold f_off, set_flag; simpl. now rewrite Nat.eqb_refl.
Qed.

(** As long as the mouse position, the product, the quotient and the
    sum stay in the range of [int]: for a positive whole number of pixels
    per bar, a mouse position [k] bar widths into the widget is [k] bars
    after the position of the view, and for a positive number of ticks per
    bar a mouse position further right is never an earlier position. *)
Theorem getPosition_bars (currentPosition tpt ppt : Z) :
  0 < ppt <= int_max ->
  - int_max <= currentPosition <= int_max ->
  - int_max <= tpt <= int_max ->
  (forall k,
     - int_max <= k * ppt <= int_max ->
     - int_max <= k * ppt * tpt <= int_max ->
     - int_max <= currentPosition + k * tpt <= int_max ->
     getPosition currentPosition tpt ppt (k * ppt)
     = currentPosition + k * tpt) /\
  (0 < tpt ->
   forall x1 x2,
     - int_max <= x1 -> x1 <= x2 -> x2 <= int_max ->
     - int_max <= x1 * tpt -> x2 * tpt <= int_max ->
     - int_max <= getPosition currentPosition tpt ppt x1 ->
     getPosition currentPosition tpt ppt x2 <= int_max ->
     getPosition currentPosition tpt ppt x1
     <= getPosition currentPosition tpt ppt x2).
Proof.
  intros Hp _ _. unfold getPosition. split.
  - intros k _ _ _. replace (k * ppt * tpt) with (k * tpt * ppt) by ring.
    rewrite Z.quot_mul by lia. reflexivity.
  - intros Ht x1 x2 _ Hx _ _ _ Hlo Hhi.
    assert (x1 * tpt ÷ ppt <= x2 * tpt ÷ ppt)
      by (apply Z.quot_le_mono; nia).
    lia.
Qed.

Lemma getPosition_bars_witness :
  getPosition 384 192 16 (3 * 16) = 384 + 3 * 192 /\
  getPosition 384 192 16 10 <= getPosition 384 192 16 25.
Proof.
  destruct (getPosition_bars 384 192 16) as [Hk Hm];
    try (unfold int_max; lia).
  split.
  - apply Hk; unfold int_max; lia.
  - apply Hm; try (unfold int_max; lia);
      unfold int_max; vm_compute; discriminate.
Defined.

Lemma removeTCO_first_entry_witness :
  removeTCO [3; 5; 3]%nat 7%nat = [3; 5; 3]%nat /\
  removeTCO [5; 3; 8; 3]%nat 3%nat = [5]%nat ++ [8; 3]%nat /\
  numOfTCOs (removeTCO [3; 5; 3]%nat 3%nat) = numOfTCOs [3; 5; 3]%nat - 1.
Proof.
  split; [|split].
  - apply (proj1 (removeTCO_first_entry [3; 5; 3]%nat 7%nat)).
    simpl. intros [H|[H|[H|[]]]]; discriminate H.
  - apply (proj1 (proj2 (removeTCO_first_entry [5; 3; 8; 3]%nat 3%nat))
             [5]%nat [8; 3]%nat eq_refl).
    simpl. intros [H|[]]; discriminate H.
  - apply (proj2 (proj2 (removeTCO_first_entry [3; 5; 3]%nat 3%nat))).
    simpl. now left.
Defined.

Lemma getTCO_getTCONum_witness :
  getTCO 192 [3; 5]%nat (getTCONum [3; 5]%nat 5%nat) = Existing 5%nat /\
  getTCONum [3; 5]%nat 7%nat = 0.
Proof.
  split.
  - apply (proj1 (getTCO_getTCONum 192 [3; 5]%nat 5%nat)).
    simpl. right. now left.
  - apply (proj2 (getTCO_getTCONum 192 [3; 5]%nat 7%nat)).
    simpl. intros [H|[H|[]]]; discriminate H.
Defined.

Lemma getTCOsInRange_sorted_witness :
  ordered (fun t => Z.of_nat t * 10)
    (getTCOsInRange (fun t => Z.of_nat t * 10) (fun t => Z.of_nat t * 10 + 5)
       [4; 1; 3]%nat [] 10 35).
Proof.
  apply (getTCOsInRange_sorted (fun t => Z.of_nat t * 10)
           (fun t => Z.of_nat t * 10 + 5) [4; 1; 3]%nat [] 10 35).
  exact I.
Defined.

Lemma insertTact_moves_witness :
  insertTact 192 [1; 2]%nat (fun t => Z.of_nat t * 192) 384 2%nat
  = if 384 >=? 384
    then 384 + Z.of_nat (count_occ Nat.eq_dec [1; 2]%nat 2%nat) * 192
    else 384.
Proof.
  apply (insertTact_moves 192 [1; 2]%nat (fun t => Z.of_nat t * 192) 384).
  - lia.
  - intros t [<-|[<-|[]]]; vm_compute; discriminate.
Defined.

Lemma removeTact_insertTact_witness :
  removeTact 192 [1; 2]%nat
    (insertTact 192 [1; 2]%nat (fun t => Z.of_nat t * 192) 384) 384 2%nat
  = 384.
Proof.
  apply (removeTact_insertTact 192 [1; 2]%nat (fun t => Z.of_nat t * 192) 384).
  - lia.
  - lia.
  - intros t [<-|[<-|[]]]; vm_compute; discriminate.
Defined.

Lemma removeTact_moves_witness :
  0 <= removeTact 192 [1; 2]%nat (fun t => Z.of_nat t * 100) 150 2%nat
    <= int_max /\
  removeTact 192 [1; 2]%nat (fun t => Z.of_nat t * 100) 150 1%nat = 100.
Proof.
  assert (Hr : forall x, In x [1; 2]%nat ->
            - int_max <= Z.of_nat x * 100 - 192 /\
            Z.of_nat x * 100 <= int_max)
    by (intros x [<-|[<-|[]]]; unfold int_max; simpl; lia).
  assert (Ht : 0 <= 192 <= int_max) by (unfold int_max; lia).
  pose proof (removeTact_moves 192 [1; 2]%nat (fun t => Z.of_nat t * 100)
                150 2%nat Ht Hr) as (_ & _ & H2 & _).
  pose proof (removeTact_moves 192 [1; 2]%nat (fun t => Z.of_nat t * 100)
                150 1%nat Ht Hr) as (H1 & _).
  split.
  - apply H2; [simpl; right; now left | simpl; lia].
  - apply H1. simpl. lia.
Defined.

Lemma length_bounds_witness :
  0 <= length (fun t => Z.of_nat t * 100) 192 [3; 5]%nat.
Proof.
  apply (length_bounds (fun t => Z.of_nat t * 100) 192 [3; 5]%nat). lia.
Defined.

Lemma swapPositionOfTCOs_exchange_witness :
  exists l' h',
    swapPositionOfTCOs [3; 5; 8]%nat (fun t => Z.of_nat t * 100) 0 2
      = Some (l', h') /\
    vec_at l' 0 = Some 8%nat /\
    vec_at l' 2 = Some 3%nat /\
    h' 3%nat = 800 /\
    h' 8%nat = 300.
Proof.
  destruct (swapPositionOfTCOs_exchange [3; 5; 8]%nat
              (fun t => Z.of_nat t * 100) 0 2 3%nat 8%nat eq_refl eq_refl)
    as (l' & h' & Hs & H1 & H2 & _ & _ & Ha & Hb & _).
  exists l', h'. repeat split; assumption.
Defined.

Lemma toggleSolo_solo_on_witness :
  let f := mkFlags (fun t => Nat.eqb t 2) (fun t => Nat.eqb t 3)
                   (fun _ => false) in
  muted (toggleSolo 2%nat [1; 2; 3]%nat f) 1%nat = negb (Nat.eqb 1 2) /\
  mutedBeforeSolo (toggleSolo 2%nat [1; 2; 3]%nat f) 1%nat = muted f 1%nat /\
  solo (toggleSolo 2%nat [1; 2; 3]%nat f) 1%nat = Nat.eqb 1 2.
Proof.
  intros f.
  apply (toggleSolo_solo_on 2%nat [1; 2; 3]%nat f).
  - repeat constructor; simpl; lia.
  - reflexivity.
  - intros t Hin Hne. simpl. now apply Nat.eqb_neq.
  - simpl. now left.
Defined.

Lemma toggleSolo_round_trip_witness :
  let f := mkFlags (fun t => Nat.eqb t 2) (fun t => Nat.eqb t 3)
                   (fun _ => false) in
  let f1 := toggleSolo 2%nat [1; 2; 3]%nat f in
  let f_off := mkFlags (set_flag (solo f1) 2%nat false) (muted f1)
                       (mutedBeforeSolo f1) in
  muted (toggleSolo 2%nat [1; 2; 3]%nat f_off) 3%nat = muted f 3%nat.
Proof.
  intros f f1 f_off.
  apply (toggleSolo_round_trip 2%nat [1; 2; 3]%nat f).
  - repeat constructor; simpl; lia.
  - reflexivity.
  - intros t Hin Hne. simpl. now apply Nat.eqb_neq.
  - simpl. right. right. now left.
Defined.

End TrackFacts.
